(** * vault-operator-helper: the reconciliation pass of [main.go]

    A shallow embedding of [updateConfigMap] and the functions it calls
    ([getFilteredNamespaces], [createConfigMap], [killMainContainer],
    [getMainContainerPID]) together with the parts of the Go runtime and of
    the Kubernetes client they rely on ([strings.Join], [strings.Fields],
    Go maps with their nil case, the ConfigMap and Namespace clients, the
    [pgrep] and [kill] commands).

    The program talks to the outside world only through calls; a pass is a
    computation over a [World] that answers those calls and records each
    of them, with its result, in a trace.  [main], [getKubeConfig] and
    [watchNamespaces] only build the client and call [updateConfigMap] at
    start-up and on every namespace event; they are not modelled. *)

From Stdlib Require Import Ascii.
From stdpp Require Import base strings gmap list.

Open Scope string_scope.
Open Scope list_scope.
Open Scope nat_scope.

(** ** Go values *)

(** Go's [error] interface.  The Kubernetes client returns status errors
    that carry a reason; [os/exec] and [fmt.Errorf] return plain ones. *)
Inductive StatusReason :=
| StatusReasonNotFound
| StatusReasonAlreadyExists
| StatusReasonConflict
| StatusReasonTimeout
| StatusReasonServiceUnavailable
| StatusReasonForbidden
| StatusReasonInternalError.

Inductive error :=
| StatusError (reason : StatusReason) (msg : string)
| errorString (msg : string).

(** The [Error()] method, which is what [%v] prints. *)
Definition Error (e : error) : string :=
  match e with
  | StatusError _ msg => msg
  | errorString msg => msg
  end.

(** A Go pair [(value, err)] of which exactly one side is meaningful. *)
Inductive result (A : Type) :=
| Ok (a : A)
| Err (e : error).
Arguments Ok {A} a.
Arguments Err {A} e.

Definition err_of {A} (r : result A) : option error :=
  match r with
  | Ok _ => None
  | Err e => Some e
  end.

(** A Go [map[string]string]: [None] is the nil map.  Indexing a nil map
    or a missing key reads the zero value; assigning into a nil map
    panics. *)
Abbreviation gomap := (option (gmap string string)).

Definition map_index (m : gomap) (k : string) : string :=
  match m with
  | Some g => default "" (g !! k)
  | None => ""
  end.

Definition map_assign (m : gomap) (k v : string) : option gomap :=
  match m with
  | Some g => Some (Some (<[k := v]> g))
  | None => None
  end.

Definition LF : string := String "010"%char EmptyString.
Definition DQUOTE : string := String "034"%char EmptyString.

(** ** [strings.Join] and [strings.Fields] *)

(** [strings.Join]: no element gives the empty string, one element gives
    that element, otherwise the elements are written in order with [sep]
    before every element but the first. *)
Fixpoint Join (elems : list string) (sep : string) : string :=
  match elems with
  | [] => ""
  | s :: rest =>
      match rest with
      | [] => s
      | _ :: _ => s +:+ sep +:+ Join rest sep
      end
  end.

(** The table [asciiSpace] of package [strings]: tab, line feed, vertical
    tab, form feed, carriage return and space. *)
Definition asciiSpace (c : ascii) : bool :=
  let n := nat_of_ascii c in
  bool_decide (n = 9 ∨ n = 10 ∨ n = 11 ∨ n = 12 ∨ n = 13 ∨ n = 32)%nat.

(** The fast path of [strings.Fields], taken when every byte is ASCII:
    the fields are the runs of bytes outside [asciiSpace].  [cur] is the
    field being read, empty between fields. *)
Fixpoint Fields_from (cur : string) (s : string) : list string :=
  match s with
  | EmptyString => if decide (cur = "") then [] else [cur]
  | String c rest =>
      if asciiSpace c
      then (if decide (cur = "") then Fields_from "" rest
            else cur :: Fields_from "" rest)
      else Fields_from (cur +:+ String c EmptyString) rest
  end.

(** [setBits < utf8.RuneSelf]: no byte of the text is 0x80 or above. *)
Fixpoint all_ascii (s : string) : bool :=
  match s with
  | EmptyString => true
  | String c rest => (N_of_ascii c <? 128)%N && all_ascii rest
  end.

Definition RuneError : N := 65533.

(** A continuation byte of UTF-8, between [locb] and [hicb]. *)
Definition is_cont (b : N) : bool := ((128 <=? b) && (b <=? 191))%N.

(** The rune at the head of a text and the number of bytes it takes, as
    a [range] loop over a string reads it: an ASCII byte is itself; two,
    three or four bytes that are a shortest-form encoding of a code point
    that is not a surrogate and not above U+10FFFF give that code point;
    anything else gives [RuneError] and takes one byte. *)
Definition decoderune (s : string) : N * nat :=
  match s with
  | EmptyString => (RuneError, 1)
  | String c0 t0 =>
      let s0 := N_of_ascii c0 in
      if (s0 <? 128)%N then (s0, 1)
      else if ((192 <=? s0) && (s0 <? 224))%N then
        match t0 with
        | String c1 _ =>
            let s1 := N_of_ascii c1 in
            let r := N.lor (N.shiftl (N.land s0 31) 6) (N.land s1 63) in
            if is_cont s1 && (127 <? r)%N then (r, 2) else (RuneError, 1)
        | _ => (RuneError, 1)
        end
      else if ((224 <=? s0) && (s0 <? 240))%N then
        match t0 with
        | String c1 (String c2 _) =>
            let s1 := N_of_ascii c1 in
            let s2 := N_of_ascii c2 in
            let r := N.lor (N.shiftl (N.land s0 15) 12)
                       (N.lor (N.shiftl (N.land s1 63) 6) (N.land s2 63)) in
            if is_cont s1 && is_cont s2 && (2047 <? r)%N
               && negb ((55296 <=? r) && (r <=? 57343))%N
            then (r, 3) else (RuneError, 1)
        | _ => (RuneError, 1)
        end
      else if ((240 <=? s0) && (s0 <? 248))%N then
        match t0 with
        | String c1 (String c2 (String c3 _)) =>
            let s1 := N_of_ascii c1 in
            let s2 := N_of_ascii c2 in
            let s3 := N_of_ascii c3 in
            let r := N.lor (N.shiftl (N.land s0 7) 18)
                       (N.lor (N.shiftl (N.land s1 63) 12)
                          (N.lor (N.shiftl (N.land s2 63) 6) (N.land s3 63))) in
            if is_cont s1 && is_cont s2 && is_cont s3
               && (65535 <? r)%N && (r <=? 1114111)%N
            then (r, 4) else (RuneError, 1)
        | _ => (RuneError, 1)
        end
      else (RuneError, 1)
  end.

(** [unicode.IsSpace]: the code points with the property White_Space. *)
Definition IsSpace (r : N) : bool :=
  ((9 <=? r) && (r <=? 13) || (r =? 32) || (r =? 133) || (r =? 160)
   || (r =? 5760) || (8192 <=? r) && (r <=? 8202)
   || (r =? 8232) || (r =? 8233) || (r =? 8239) || (r =? 8287) || (r =? 12288))%N.

(** [strings.FieldsFunc]: the fields are the runs of runes for which [f]
    is false.  [cur] is the field being read; [skip] counts the bytes
    still to pass of the rune read last, which go to the field when
    [keep] is set. *)
Fixpoint FieldsFunc_from (f : N → bool) (cur : string) (skip : nat) (keep : bool)
    (s : string) : list string :=
  match s with
  | EmptyString => if decide (cur = "") then [] else [cur]
  | String c rest =>
      match skip with
      | S k =>
          FieldsFunc_from f (if keep then cur +:+ String c EmptyString else cur) k keep rest
      | O =>
          if f (decoderune s).1
          then (if decide (cur = "")
                then FieldsFunc_from f "" (pred (decoderune s).2) false rest
                else cur :: FieldsFunc_from f "" (pred (decoderune s).2) false rest)
          else FieldsFunc_from f (cur +:+ String c EmptyString)
                 (pred (decoderune s).2) true rest
      end
  end.

Definition FieldsFunc (s : string) (f : N → bool) : list string :=
  FieldsFunc_from f "" 0 false s.

(** [strings.Fields]: the fast path when the text is ASCII, and
    [FieldsFunc] with [unicode.IsSpace] once a byte is 0x80 or above. *)
Definition Fields (s : string) : list string :=
  if all_ascii s then Fields_from "" s else FieldsFunc s IsSpace.

(** ** Kubernetes objects *)

Record ObjectMeta := {
  Name : string;
  Namespace : string;
  ResourceVersion : string;
  Labels : gomap
}.

Record ConfigMap := {
  cmObjectMeta : ObjectMeta;
  Data : gomap
}.

Record NamespaceObj := {
  nsObjectMeta : ObjectMeta
}.

(** What the store keeps under a (namespace, name) key: the object without
    the two fields that are its key. *)
Record StoredObject := {
  objResourceVersion : string;
  objLabels : gomap;
  objData : gomap
}.

Definition object_at (ns name : string) (o : StoredObject) : ConfigMap :=
  {| cmObjectMeta := {| Name := name; Namespace := ns;
                        ResourceVersion := objResourceVersion o;
                        Labels := objLabels o |};
     Data := objData o |}.

Definition stored_of (cm : ConfigMap) : StoredObject :=
  {| objResourceVersion := ResourceVersion (cmObjectMeta cm);
     objLabels := Labels (cmObjectMeta cm);
     objData := Data cm |}.

(** [cm.Data = d] on the object a pointer refers to: every other field is
    kept. *)
Definition with_Data (cm : ConfigMap) (d : gomap) : ConfigMap :=
  {| cmObjectMeta := cmObjectMeta cm; Data := d |}.

(** ** The command-line flags

    [init] binds five package variables to flags; they never change once
    parsed. *)
Record Flags := {
  configMapName : string;
  configMapNamespace : string;
  labelSelector : string;
  watchKey : string;
  mainContainerName : string
}.

(** The values [init] gives them when the command line is empty. *)
Definition default_flags : Flags := {|
  configMapName := "watch-namespace-config";
  configMapNamespace := "vault";
  labelSelector := "foo=bar";
  watchKey := "WATCH_NAMESPACE";
  mainContainerName := "main-container"
|}.

(** ** The world a pass runs in *)

(** What the environment answers during one pass.  [namespaces] is the
    answer of the namespace list call for the configured selector, items
    in response order.  [configmaps] is the content of the config store,
    keyed by (namespace, name).  The three [_fault] fields make the
    corresponding store call fail with the given error whatever the store
    holds, so that every failure the API can report is covered.
    [pgrep_result] is the standard output of [pgrep -f] or the error of
    running it; [kill_result] the error of [kill -SIGTERM], if any. *)
Record World := {
  namespaces : result (list NamespaceObj);
  configmaps : gmap (string * string) StoredObject;
  get_fault : option error;
  create_fault : option error;
  update_fault : option error;
  pgrep_result : result string;
  kill_result : option error
}.

Definition set_configmaps (w : World) (m : gmap (string * string) StoredObject) : World :=
  {| namespaces := namespaces w;
     configmaps := m;
     get_fault := get_fault w;
     create_fault := create_fault w;
     update_fault := update_fault w;
     pgrep_result := pgrep_result w;
     kill_result := kill_result w |}.

Definition set_namespaces (w : World) (r : result (list NamespaceObj)) : World :=
  {| namespaces := r;
     configmaps := configmaps w;
     get_fault := get_fault w;
     create_fault := create_fault w;
     update_fault := update_fault w;
     pgrep_result := pgrep_result w;
     kill_result := kill_result w |}.

(** One entry per call that leaves the process, with the error it
    returned ([None] for success), and one per line printed. *)
Inductive Event :=
| EvLock
| EvUnlock
| EvList (selector : string) (err : option error)
| EvGet (ns name : string) (err : option error)
| EvCreate (ns : string) (cm : ConfigMap) (err : option error)
| EvUpdate (ns : string) (cm : ConfigMap) (err : option error)
| EvPgrep (pattern : string) (err : option error)
| EvKill (pid : string) (err : option error)
| EvPrint (text : string).

(** ** The monad of a pass: world passing, a trace, and panics *)

Inductive Outcome (A : Type) :=
| Returned (a : A)
| Panicked (msg : string).
Arguments Returned {A} a.
Arguments Panicked {A} msg.

Definition M (A : Type) : Type := World → Outcome A * World * list Event.

Definition ret {A} (a : A) : M A := λ w, (Returned a, w, []).

Definition bind {A B} (m : M A) (k : A → M B) : M B := λ w,
  match m w with
  | (Returned a, w1, t1) =>
      match k a w1 with
      | (o, w2, t2) => (o, w2, t1 ++ t2)
      end
  | (Panicked msg, w1, t1) => (Panicked msg, w1, t1)
  end.

Declare Scope go_scope.
Delimit Scope go_scope with go.
Notation "x <- m ;; k" := (bind m (λ x, k))
  (at level 100, m at next level, right associativity) : go_scope.
Notation "m ;;; k" := (bind m (λ _, k))
  (at level 100, right associativity) : go_scope.
Open Scope go_scope.

(** [defer d] around [body]: [d] runs when [body] is left, by a return or
    by a panic, and the panic, if any, goes on afterwards. *)
Definition defer {A} (d : M unit) (body : M A) : M A := λ w,
  match body w with
  | (o, w1, t1) =>
      match d w1 with
      | (Returned _, w2, t2) => (o, w2, t1 ++ t2)
      | (Panicked msg, w2, t2) => (Panicked msg, w2, t1 ++ t2)
      end
  end.

Definition panic {A} (msg : string) : M A := λ w, (Panicked msg, w, []).

Definition emit (e : Event) : M unit := λ w, (Returned tt, w, [e]).

Definition outcome_of {A} (r : Outcome A * World * list Event) : Outcome A := r.1.1.
Definition world_of {A} (r : Outcome A * World * list Event) : World := r.1.2.
Definition trace_of {A} (r : Outcome A * World * list Event) : list Event := r.2.

(** ** The calls a pass makes *)

(** [lock.Lock()] and [lock.Unlock()] on the package mutex.  Passes are
    run one after another here, so the mutex is free when a pass asks for
    it; taking and releasing it are recorded in the trace. *)
Definition lock_Lock : M unit := emit EvLock.
Definition lock_Unlock : M unit := emit EvUnlock.

(** [fmt.Printf] and [fmt.Println] write to standard output. *)
Definition Printf (text : string) : M unit := emit (EvPrint text).
Definition Println (text : string) : M unit := emit (EvPrint (text +:+ LF)).

(** [clientset.CoreV1().Namespaces().List] with a label selector. *)
Definition Namespaces_List (selector : string) : M (result (list NamespaceObj)) := λ w,
  (Returned (namespaces w), w, [EvList selector (err_of (namespaces w))]).

Definition errNotFound (name : string) : error :=
  StatusError StatusReasonNotFound
    ("configmaps " +:+ DQUOTE +:+ name +:+ DQUOTE +:+ " not found").

Definition errAlreadyExists (name : string) : error :=
  StatusError StatusReasonAlreadyExists
    ("configmaps " +:+ DQUOTE +:+ name +:+ DQUOTE +:+ " already exists").

Definition errConflict (name : string) : error :=
  StatusError StatusReasonConflict
    ("Operation cannot be fulfilled on configmaps " +:+ DQUOTE +:+ name +:+ DQUOTE
     +:+ ": the object has been modified").

(** What the store answers to [Get]: the stored object, or a NotFound
    status error; any other error when the world injects one. *)
Definition Get_answer (ns name : string) (w : World) : result ConfigMap :=
  match get_fault w with
  | Some e => Err e
  | None =>
      match configmaps w !! (ns, name) with
      | Some o => Ok (object_at ns name o)
      | None => Err (errNotFound name)
      end
  end.

(** What it answers to [Create], and the world afterwards: the object is
    stored unless one of that name is there already. *)
Definition Create_answer (ns : string) (cm : ConfigMap) (w : World) : result ConfigMap * World :=
  let key := (ns, Name (cmObjectMeta cm)) in
  match create_fault w with
  | Some e => (Err e, w)
  | None =>
      match configmaps w !! key with
      | Some _ => (Err (errAlreadyExists (Name (cmObjectMeta cm))), w)
      | None => (Ok cm, set_configmaps w (<[key := stored_of cm]> (configmaps w)))
      end
  end.

(** What it answers to [Update], and the world afterwards: the stored
    object is replaced when the version sent is the stored one; a
    different version is a conflict. *)
Definition Update_answer (ns : string) (cm : ConfigMap) (w : World) : result ConfigMap * World :=
  let key := (ns, Name (cmObjectMeta cm)) in
  match update_fault w with
  | Some e => (Err e, w)
  | None =>
      match configmaps w !! key with
      | None => (Err (errNotFound (Name (cmObjectMeta cm))), w)
      | Some old =>
          if decide (ResourceVersion (cmObjectMeta cm) = objResourceVersion old)
          then (Ok cm, set_configmaps w (<[key := stored_of cm]> (configmaps w)))
          else (Err (errConflict (Name (cmObjectMeta cm))), w)
      end
  end.

(** [ConfigMaps(ns).Get], [.Create] and [.Update] of the client. *)
Definition ConfigMaps_Get (ns name : string) : M (result ConfigMap) := λ w,
  let r := Get_answer ns name w in
  (Returned r, w, [EvGet ns name (err_of r)]).

Definition ConfigMaps_Create (ns : string) (cm : ConfigMap) : M (result ConfigMap) := λ w,
  let a := Create_answer ns cm w in
  (Returned a.1, a.2, [EvCreate ns cm (err_of a.1)]).

Definition ConfigMaps_Update (ns : string) (cm : ConfigMap) : M (result ConfigMap) := λ w,
  let a := Update_answer ns cm w in
  (Returned a.1, a.2, [EvUpdate ns cm (err_of a.1)]).

(** [exec.Command("pgrep", "-f", pattern).Output()]. *)
Definition exec_pgrep (pattern : string) : M (result string) := λ w,
  (Returned (pgrep_result w), w, [EvPgrep pattern (err_of (pgrep_result w))]).

(** [exec.Command("kill", "-SIGTERM", pid).Run()]. *)
Definition exec_kill (pid : string) : M (option error) := λ w,
  (Returned (kill_result w), w, [EvKill pid (kill_result w)]).

(** ** The program *)

Section Program.
Context (fl : Flags).

(** [getFilteredNamespaces] (main.go 169-182): the names of the listed
    items, appended one by one in the order of the response. *)
Definition getFilteredNamespaces : M (result (list string)) :=
  r <- Namespaces_List (labelSelector fl) ;;
  match r with
  | Err e => ret (Err e)
  | Ok items =>
      ret (Ok (foldl (λ nsList ns, nsList ++ [Name (nsObjectMeta ns)]) [] items))
  end.

(** [createConfigMap] (main.go 185-200). *)
Definition createConfigMap (value : string) : M unit :=
  let cm := {|
    cmObjectMeta := {| Name := configMapName fl;
                       Namespace := configMapNamespace fl;
                       ResourceVersion := "";
                       Labels := None |};
    Data := Some {[ watchKey fl := value ]}
  |} in
  r <- ConfigMaps_Create (configMapNamespace fl) cm ;;
  match r with
  | Err e => Printf ("Error creating ConfigMap: " +:+ Error e +:+ LF)
  | Ok _ => ret tt
  end.

(** [getMainContainerPID] (main.go 221-233): the first field of the
    output of [pgrep]; [pidList[0]] under [len(pidList) > 0] is the head
    of a list that is not empty. *)
Definition getMainContainerPID : M (result string) :=
  r <- exec_pgrep (mainContainerName fl) ;;
  match r with
  | Err e => ret (Err e)
  | Ok out =>
      match Fields out with
      | pid :: _ => ret (Ok pid)
      | [] => ret (Err (errorString "main container PID not found"))
      end
  end.

(** [killMainContainer] (main.go 203-218). *)
Definition killMainContainer : M unit :=
  Println "Restarting main container..." ;;;
  r <- getMainContainerPID ;;
  match r with
  | Err e => Printf ("Error getting main container PID: " +:+ Error e +:+ LF)
  | Ok pid =>
      err <- exec_kill pid ;;
      match err with
      | Some e => Printf ("Error sending SIGTERM to main container: " +:+ Error e +:+ LF)
      | None => ret tt
      end
  end.

(** [updateConfigMap] (main.go 131-166), one reconciliation pass. *)
Definition updateConfigMap : M unit :=
  lock_Lock ;;;
  defer lock_Unlock (
    r <- getFilteredNamespaces ;;
    match r with
    | Err e => Printf ("Error getting namespaces: " +:+ Error e +:+ LF)
    | Ok nsList =>
        let newValue := Join nsList "," in
        g <- ConfigMaps_Get (configMapNamespace fl) (configMapName fl) ;;
        match g with
        | Err _ => createConfigMap newValue
        | Ok cm =>
            if decide (map_index (Data cm) (watchKey fl) = newValue)
            then ret tt
            else
              match map_assign (Data cm) (watchKey fl) newValue with
              | None => panic "assignment to entry in nil map"
              | Some d =>
                  u <- ConfigMaps_Update (configMapNamespace fl) (with_Data cm d) ;;
                  match u with
                  | Err e => Printf ("Error updating ConfigMap: " +:+ Error e +:+ LF)
                  | Ok _ => killMainContainer
                  end
              end
        end
    end).

End Program.

(** ** Reading a trace *)

Definition is_list (e : Event) : bool := match e with EvList _ _ => true | _ => false end.
Definition is_get (e : Event) : bool := match e with EvGet _ _ _ => true | _ => false end.
Definition is_create (e : Event) : bool := match e with EvCreate _ _ _ => true | _ => false end.
Definition is_update (e : Event) : bool := match e with EvUpdate _ _ _ => true | _ => false end.
Definition is_pgrep (e : Event) : bool := match e with EvPgrep _ _ => true | _ => false end.
Definition is_kill (e : Event) : bool := match e with EvKill _ _ => true | _ => false end.

Definition is_failed_update (e : Event) : bool :=
  match e with EvUpdate _ _ (Some _) => true | _ => false end.

Definition count (p : Event → bool) (tr : list Event) : nat :=
  length (List.filter p tr).

(** Calls that write to the config store. *)
Definition is_write (e : Event) : bool := is_create e || is_update e.
Definition is_store_call (e : Event) : bool := is_get e || is_write e.

Definition creates (tr : list Event) : nat := count is_create tr.
Definition updates (tr : list Event) : nat := count is_update tr.
Definition writes (tr : list Event) : nat := count is_write tr.
(** Every run of [killMainContainer] starts one [pgrep]; a signal is sent
    by [kill]. *)
Definition signaler_calls (tr : list Event) : nat := count is_pgrep tr.
Definition signals_sent (tr : list Event) : nat := count is_kill tr.

(** The value stored under the watched key of the configured object. *)
Definition stored_value (fl : Flags) (w : World) : option string :=
  o ← configmaps w !! (configMapNamespace fl, configMapName fl);
  Some (map_index (objData o) (watchKey fl)).

(** ** Worlds for the examples *)

Definition mkNamespace (name : string) : NamespaceObj :=
  {| nsObjectMeta := {| Name := name; Namespace := ""; ResourceVersion := "1"; Labels := None |} |}.

(** A world without faults: the lister answers [names], the store holds
    [cms], one process matches the pattern of [pgrep]. *)
Definition quiet_world (names : list string) (cms : gmap (string * string) StoredObject) : World :=
  {| namespaces := Ok (mkNamespace <$> names);
     configmaps := cms;
     get_fault := None;
     create_fault := None;
     update_fault := None;
     pgrep_result := Ok ("4242" +:+ LF);
     kill_result := None |}.

Definition stored_obj (d : gomap) : StoredObject :=
  {| objResourceVersion := "7"; objLabels := None; objData := d |}.

Definition store_with (fl : Flags) (d : gomap) : gmap (string * string) StoredObject :=
  {[ (configMapNamespace fl, configMapName fl) := stored_obj d ]}.

Definition with_faults (w : World) (g c u : option error) : World :=
  {| namespaces := namespaces w;
     configmaps := configmaps w;
     get_fault := g;
     create_fault := c;
     update_fault := u;
     pgrep_result := pgrep_result w;
     kill_result := kill_result w |}.

Definition with_pgrep (w : World) (r : result string) : World :=
  {| namespaces := namespaces w;
     configmaps := configmaps w;
     get_fault := get_fault w;
     create_fault := create_fault w;
     update_fault := update_fault w;
     pgrep_result := r;
     kill_result := kill_result w |}.

Definition errTimeout : error :=
  StatusError StatusReasonTimeout "the server was unable to return a response in time".

(** [pgrep] leaves with status 1 when no process matches. *)
Definition errExit1 : error := errorString "exit status 1".

(** The store holds a,b and the lister answers a then b. *)
Definition synced_world : World :=
  quiet_world ["a"; "b"]
    (store_with default_flags (Some {[ "WATCH_NAMESPACE" := "a,b" ]})).

(** The store holds a, next to a key of somebody else; the lister answers
    a then b. *)
Definition stale_world : World :=
  quiet_world ["a"; "b"]
    (store_with default_flags (Some {[ "WATCH_NAMESPACE" := "a"; "OTHER" := "x" ]})).

(** The object the pass sends from [stale_world]. *)
Definition stale_updated : ConfigMap :=
  {| cmObjectMeta := {| Name := "watch-namespace-config"; Namespace := "vault";
                        ResourceVersion := "7"; Labels := None |};
     Data := Some {[ "WATCH_NAMESPACE" := "a,b"; "OTHER" := "x" ]} |}.

(** The store holds a,b and the lister answers b then a. *)
Definition reordered_world : World :=
  quiet_world ["b"; "a"]
    (store_with default_flags (Some {[ "WATCH_NAMESPACE" := "a,b" ]})).

Definition absent_world : World := quiet_world ["a"; "b"] ∅.

Definition empty_world : World := quiet_world [] ∅.

(** The stored object has no data at all: its map is nil once read. *)
Definition nil_data_world (names : list string) : World :=
  quiet_world names (store_with default_flags None).

(** The object is there and in step, but [Get] times out. *)
Definition get_timeout_world : World :=
  with_faults synced_world (Some errTimeout) None None.

Definition lister_down_world : World :=
  set_namespaces stale_world (Err errTimeout).

Definition conflict_world : World :=
  with_faults stale_world None None (Some (errConflict "watch-namespace-config")).

Definition no_process_world : World := with_pgrep stale_world (Err errExit1).

(** ** Derived notions used in the statements *)

(** The names of the listed items, in the order of the response. *)
Definition listed_names (items : list NamespaceObj) : list string :=
  (λ ns, Name (nsObjectMeta ns)) <$> items.

(** The object [createConfigMap] sends. *)
Definition created_object (fl : Flags) (value : string) : ConfigMap :=
  {| cmObjectMeta := {| Name := configMapName fl; Namespace := configMapNamespace fl;
                        ResourceVersion := ""; Labels := None |};
     Data := Some {[ watchKey fl := value ]} |}.

(** What follows the [pgrep] in a run of [killMainContainer]. *)
Definition after_pgrep (w : World) : list Event :=
  match pgrep_result w with
  | Err e => [EvPrint ("Error getting main container PID: " +:+ Error e +:+ LF)]
  | Ok out =>
      match Fields out with
      | [] => [EvPrint ("Error getting main container PID: "
                        +:+ "main container PID not found" +:+ LF)]
      | pid :: _ =>
          EvKill pid (kill_result w) ::
          match kill_result w with
          | Some e => [EvPrint ("Error sending SIGTERM to main container: "
                                +:+ Error e +:+ LF)]
          | None => []
          end
      end
  end.

(** Reading a key of a Go map without the zero value: is it there, and
    with which value. *)
Definition map_lookup (m : gomap) (k : string) : option string :=
  g ← m; g !! k.

(** The events after the first [Update] that succeeded, if there is one. *)
Fixpoint after_update_ok (tr : list Event) : option (list Event) :=
  match tr with
  | [] => None
  | EvUpdate _ _ None :: rest => Some rest
  | _ :: rest => after_update_ok rest
  end.

(** [pgrep] reports no process: it fails (its exit status is 1 when
    nothing matches) or its output has no field. *)
Definition no_process_found (w : World) : Prop :=
  match pgrep_result w with
  | Err _ => True
  | Ok out => Fields out = []
  end.

(** The six ways through [updateConfigMap], each with the result of the
    pass; [updateConfigMap_cases] below shows that every pass is one of
    them. *)
Inductive PassCase (fl : Flags) (w : World) : Outcome unit * World * list Event → Prop :=
| Pass_list_failed e :
    namespaces w = Err e →
    PassCase fl w
      (Returned tt, w,
       [EvLock; EvList (labelSelector fl) (Some e);
        EvPrint ("Error getting namespaces: " +:+ Error e +:+ LF); EvUnlock])
| Pass_get_failed items e r w' :
    namespaces w = Ok items →
    Get_answer (configMapNamespace fl) (configMapName fl) w = Err e →
    Create_answer (configMapNamespace fl)
      (created_object fl (Join (listed_names items) ",")) w = (r, w') →
    PassCase fl w
      (Returned tt, w',
       [EvLock; EvList (labelSelector fl) None;
        EvGet (configMapNamespace fl) (configMapName fl) (Some e);
        EvCreate (configMapNamespace fl)
          (created_object fl (Join (listed_names items) ",")) (err_of r)]
       ++ match r with
          | Err e' => [EvPrint ("Error creating ConfigMap: " +:+ Error e' +:+ LF)]
          | Ok _ => []
          end
       ++ [EvUnlock])
| Pass_in_sync items cm :
    namespaces w = Ok items →
    Get_answer (configMapNamespace fl) (configMapName fl) w = Ok cm →
    map_index (Data cm) (watchKey fl) = Join (listed_names items) "," →
    PassCase fl w
      (Returned tt, w,
       [EvLock; EvList (labelSelector fl) None;
        EvGet (configMapNamespace fl) (configMapName fl) None; EvUnlock])
| Pass_nil_map items cm :
    namespaces w = Ok items →
    Get_answer (configMapNamespace fl) (configMapName fl) w = Ok cm →
    map_index (Data cm) (watchKey fl) ≠ Join (listed_names items) "," →
    Data cm = None →
    PassCase fl w
      (Panicked "assignment to entry in nil map", w,
       [EvLock; EvList (labelSelector fl) None;
        EvGet (configMapNamespace fl) (configMapName fl) None; EvUnlock])
| Pass_update_failed items cm g e w' :
    namespaces w = Ok items →
    Get_answer (configMapNamespace fl) (configMapName fl) w = Ok cm →
    map_index (Data cm) (watchKey fl) ≠ Join (listed_names items) "," →
    Data cm = Some g →
    Update_answer (configMapNamespace fl)
      (with_Data cm (Some (<[watchKey fl := Join (listed_names items) ","]> g))) w
    = (Err e, w') →
    PassCase fl w
      (Returned tt, w',
       [EvLock; EvList (labelSelector fl) None;
        EvGet (configMapNamespace fl) (configMapName fl) None;
        EvUpdate (configMapNamespace fl)
          (with_Data cm (Some (<[watchKey fl := Join (listed_names items) ","]> g)))
          (Some e);
        EvPrint ("Error updating ConfigMap: " +:+ Error e +:+ LF); EvUnlock])
| Pass_updated items cm g cm' w' :
    namespaces w = Ok items →
    Get_answer (configMapNamespace fl) (configMapName fl) w = Ok cm →
    map_index (Data cm) (watchKey fl) ≠ Join (listed_names items) "," →
    Data cm = Some g →
    Update_answer (configMapNamespace fl)
      (with_Data cm (Some (<[watchKey fl := Join (listed_names items) ","]> g))) w
    = (Ok cm', w') →
    PassCase fl w
      (Returned tt, w',
       [EvLock; EvList (labelSelector fl) None;
        EvGet (configMapNamespace fl) (configMapName fl) None;
        EvUpdate (configMapNamespace fl)
          (with_Data cm (Some (<[watchKey fl := Join (listed_names items) ","]> g)))
          None;
        EvPrint ("Restarting main container..." +:+ LF);
        EvPgrep (mainContainerName fl) (err_of (pgrep_result w'))]
       ++ after_pgrep w' ++ [EvUnlock]).

(** ** More ways of reading a trace and a string *)

Definition is_lock (e : Event) : bool := match e with EvLock => true | _ => false end.
Definition is_unlock (e : Event) : bool := match e with EvUnlock => true | _ => false end.

(** A [Create] or an [Update] that the store accepted. *)
Definition is_ok_write (e : Event) : bool :=
  match e with
  | EvCreate _ _ None => true
  | EvUpdate _ _ None => true
  | _ => false
  end.

Definition is_comma (c : ascii) : bool := bool_decide (c = ","%char).

Fixpoint has_comma (s : string) : bool :=
  match s with
  | EmptyString => false
  | String c rest => is_comma c || has_comma rest
  end.

(** A byte of the text is in [asciiSpace]. *)
Fixpoint has_space (s : string) : bool :=
  match s with
  | EmptyString => false
  | String c rest => asciiSpace c || has_space rest
  end.

(** None of the first [k] bytes is in [asciiSpace]. *)
Fixpoint no_space_prefix (k : nat) (s : string) : bool :=
  match k, s with
  | S k', String c rest => negb (asciiSpace c) && no_space_prefix k' rest
  | _, _ => true
  end.

(** What a namespace name is at least: not empty, and without a comma. *)
Definition plain_name (s : string) : Prop := s ≠ "" ∧ has_comma s = false.

(** ** The namespace watcher *)

(** What the informer of [watchNamespaces] tells its handler: an object
    was added, changed or deleted. *)
Inductive Notification :=
| OnAdd (obj : NamespaceObj)
| OnUpdate (oldObj newObj : NamespaceObj)
| OnDelete (obj : NamespaceObj).

(** [cache.ResourceEventHandlerFuncs]. *)
Record ResourceEventHandlerFuncs := {
  AddFunc : NamespaceObj → M unit;
  UpdateFunc : NamespaceObj → NamespaceObj → M unit;
  DeleteFunc : NamespaceObj → M unit
}.

(** [watchNamespaces] (main.go 114-128): the handlers it gives to the
    namespace informer.  The informer itself, its cache and its resync
    every minute belong to the client library; what reaches the program is
    the sequence of notifications, handed to these handlers one at a
    time. *)
Definition watchNamespaces (fl : Flags) : ResourceEventHandlerFuncs :=
  {| AddFunc := λ obj, updateConfigMap fl;
     UpdateFunc := λ oldObj newObj, updateConfigMap fl;
     DeleteFunc := λ obj, updateConfigMap fl |}.

Definition notify (h : ResourceEventHandlerFuncs) (n : Notification) : M unit :=
  match n with
  | OnAdd obj => AddFunc h obj
  | OnUpdate oldObj newObj => UpdateFunc h oldObj newObj
  | OnDelete obj => DeleteFunc h obj
  end.

(** The handler runs for each notification in turn; a panic in a handler
    ends the process. *)
Fixpoint deliver (h : ResourceEventHandlerFuncs) (ns : list Notification) : M unit :=
  match ns with
  | [] => ret tt
  | n :: rest => notify h n ;;; deliver h rest
  end.

(** ** Start-up: [getKubeConfig] and the beginning of [main] *)

(** [rest.Config], of which the program only passes the value on. *)
Record restConfig := {
  Host : string;
  BearerToken : string
}.

(** What the process finds when it starts: the answer of
    [rest.InClusterConfig], the environment variables, the answer of
    [clientcmd.BuildConfigFromFlags] for a kubeconfig path, and the error
    of [kubernetes.NewForConfig], if any. *)
Record Boot := {
  in_cluster : result restConfig;
  environ : gmap string string;
  build_config : string → result restConfig;
  new_client : restConfig → option error
}.

(** [os.Getenv]: the empty string for a variable that is not set. *)
Definition Getenv (b : Boot) (key : string) : string :=
  default "" (environ b !! key).

Inductive BootEvent :=
| BInClusterConfig (err : option error)
| BGetenv (key : string)
| BBuildConfig (path : string) (err : option error)
| BNewForConfig (err : option error)
| BPrint (text : string).

(** How [main] goes on after its sequential start: it has left the
    process with a status, a panic has ended it, or it has started the
    watcher and waits ([Serving]: the signal handler, the watcher
    goroutine and the wait on the stop channel, main.go 64-86, run
    concurrently and are not part of this model). *)
Inductive MainOutcome :=
| Exited (code : Z)
| Crashed (msg : string)
| Serving.

Section Startup.
(** [filepath.Join] of the standard library, which also cleans the path
    it builds. *)
Context (filepath_Join : list string → string).
Context (fl : Flags).

(** [getKubeConfig] (main.go 89-111). *)
Definition getKubeConfig (b : Boot) : result restConfig * list BootEvent :=
  match in_cluster b with
  | Ok config =>
      (Ok config,
       [BInClusterConfig None; BPrint ("Using in-cluster configuration" +:+ LF)])
  | Err e0 =>
      let kubeconfig := filepath_Join [Getenv b "HOME"; ".kube"; "config"] in
      let envKubeconfig := Getenv b "KUBECONFIG" in
      let kubeconfig :=
        if decide (envKubeconfig = "") then kubeconfig else envKubeconfig in
      let before :=
        [BInClusterConfig (Some e0);
         BPrint ("In-cluster config failed, falling back to local kubeconfig" +:+ LF);
         BGetenv "HOME"; BGetenv "KUBECONFIG"] in
      match build_config b kubeconfig with
      | Err e =>
          (Err (errorString ("failed to load kubeconfig: " +:+ Error e)),
           before ++ [BBuildConfig kubeconfig (Some e)])
      | Ok config =>
          (Ok config,
           before ++ [BBuildConfig kubeconfig None;
                      BPrint ("Using local kubeconfig" +:+ LF)])
      end
  end.

(** [main] (main.go 48-62) up to and with the pass it runs before the
    watcher starts; the events of start-up are on the left, those of the
    pass on the right. *)
Definition main (b : Boot) (w : World) : MainOutcome * World * list (BootEvent + Event) :=
  match getKubeConfig b with
  | (Err e, t) =>
      (Exited 1, w,
       (inl <$> t)
       ++ [inl (BPrint ("Error getting Kubernetes config: " +:+ Error e +:+ LF))])
  | (Ok config, t) =>
      match new_client b config with
      | Some e =>
          (Exited 1, w,
           (inl <$> t)
           ++ [inl (BNewForConfig (Some e));
               inl (BPrint ("Error creating Kubernetes client: " +:+ Error e +:+ LF))])
      | None =>
          match updateConfigMap fl w with
          | (Returned _, w', tr) =>
              (Serving, w', (inl <$> t) ++ [inl (BNewForConfig None)] ++ (inr <$> tr))
          | (Panicked msg, w', tr) =>
              (Crashed msg, w', (inl <$> t) ++ [inl (BNewForConfig None)] ++ (inr <$> tr))
          end
      end
  end.

End Startup.

(** The events of the passes in a trace of [main]. *)
Definition pass_events (t : list (BootEvent + Event)) : list Event :=
  omap (λ x, match x with inr e => Some e | inl _ => None end) t.

Definition boot_events (t : list (BootEvent + Event)) : list BootEvent :=
  omap (λ x, match x with inl e => Some e | inr _ => None end) t.

(** ** The command line: [init] *)

(** The five variables [init] binds (main.go 38-42), by the name of their
    flag. *)
Inductive FlagVar :=
| ConfigMapNameVar
| ConfigMapNamespaceVar
| LabelSelectorVar
| WatchKeyVar
| MainContainerVar.

Definition flag_name (v : FlagVar) : string :=
  match v with
  | ConfigMapNameVar => "configmap-name"
  | ConfigMapNamespaceVar => "configmap-namespace"
  | LabelSelectorVar => "label-selector"
  | WatchKeyVar => "watch-key"
  | MainContainerVar => "main-container"
  end.

(** [f.formal[name]]: the flag of that name, if one is defined. *)
Definition formal (name : string) : option FlagVar :=
  if decide (name = "configmap-name") then Some ConfigMapNameVar
  else if decide (name = "configmap-namespace") then Some ConfigMapNamespaceVar
  else if decide (name = "label-selector") then Some LabelSelectorVar
  else if decide (name = "watch-key") then Some WatchKeyVar
  else if decide (name = "main-container") then Some MainContainerVar
  else None.

(** [flag.Value.Set] of a string flag: the variable takes the value. *)
Definition Set_flag (f : Flags) (v : FlagVar) (value : string) : Flags :=
  match v with
  | ConfigMapNameVar =>
      {| configMapName := value; configMapNamespace := configMapNamespace f;
         labelSelector := labelSelector f; watchKey := watchKey f;
         mainContainerName := mainContainerName f |}
  | ConfigMapNamespaceVar =>
      {| configMapName := configMapName f; configMapNamespace := value;
         labelSelector := labelSelector f; watchKey := watchKey f;
         mainContainerName := mainContainerName f |}
  | LabelSelectorVar =>
      {| configMapName := configMapName f; configMapNamespace := configMapNamespace f;
         labelSelector := value; watchKey := watchKey f;
         mainContainerName := mainContainerName f |}
  | WatchKeyVar =>
      {| configMapName := configMapName f; configMapNamespace := configMapNamespace f;
         labelSelector := labelSelector f; watchKey := value;
         mainContainerName := mainContainerName f |}
  | MainContainerVar =>
      {| configMapName := configMapName f; configMapNamespace := configMapNamespace f;
         labelSelector := labelSelector f; watchKey := watchKey f;
         mainContainerName := value |}
  end.

(** How [parseOne] of package [flag] reads one argument: not a flag
    (shorter than two bytes, or no leading minus), the terminator [--], a
    bad flag (after one or two minuses the name is empty or starts with a
    minus or an equals sign), or a flag with what follows its minuses. *)
Inductive FlagSyntax :=
| NotAFlag
| Terminator
| BadSyntax
| FlagArg (name : string).

Definition is_minus (c : ascii) : bool := bool_decide (c = "-"%char).
Definition is_equals (c : ascii) : bool := bool_decide (c = "="%char).

Definition check_name (name : string) : FlagSyntax :=
  match name with
  | EmptyString => BadSyntax
  | String c _ => if is_minus c || is_equals c then BadSyntax else FlagArg name
  end.

Definition flag_syntax (s : string) : FlagSyntax :=
  match s with
  | String c0 (String c1 rest) =>
      if is_minus c0
      then if is_minus c1
           then match rest with
                | EmptyString => Terminator
                | _ => check_name rest
                end
           else check_name (String c1 rest)
      else NotAFlag
  | _ => NotAFlag
  end.

(** The text before and after the first equals sign. *)
Fixpoint cut_equals (s : string) : option (string * string) :=
  match s with
  | EmptyString => None
  | String c rest =>
      if is_equals c then Some (EmptyString, rest)
      else match cut_equals rest with
           | Some (before, after) => Some (String c before, after)
           | None => None
           end
  end.

(** The name of the flag and the value given with it: the name ends at
    the first equals sign that is not its first byte. *)
Definition split_value (name : string) : string * option string :=
  match name with
  | EmptyString => (EmptyString, None)
  | String c rest =>
      match cut_equals rest with
      | Some (before, value) => (String c before, Some value)
      | None => (name, None)
      end
  end.

(** What [flag.Parse] comes to on the command line flag set, whose error
    handling is to leave the process: the variables and the arguments left
    over, or the status of the exit with the message printed. *)
Inductive ParseResult :=
| Parsed (f : Flags) (rest : list string)
| ExitWith (code : Z) (msg : string).

(** [Parse]: [parseOne] until an argument is not a flag.  A string flag
    takes its value from the text after the equals sign or else from the
    next argument. *)
Fixpoint Parse (f : Flags) (args : list string) : ParseResult :=
  match args with
  | [] => Parsed f []
  | s :: rest =>
      match flag_syntax s with
      | NotAFlag => Parsed f (s :: rest)
      | Terminator => Parsed f rest
      | BadSyntax => ExitWith 2 ("bad flag syntax: " +:+ s)
      | FlagArg name =>
          match formal (split_value name).1 with
          | None =>
              if decide ((split_value name).1 = "help" ∨ (split_value name).1 = "h")
              then ExitWith 0 "flag: help requested"
              else ExitWith 2 ("flag provided but not defined: -" +:+ (split_value name).1)
          | Some v =>
              match (split_value name).2 with
              | Some value => Parse (Set_flag f v value) rest
              | None =>
                  match rest with
                  | value :: rest' => Parse (Set_flag f v value) rest'
                  | [] => ExitWith 2 ("flag needs an argument: -" +:+ (split_value name).1)
                  end
              end
          end
      end
  end.

(** [init] (main.go 36-46): the five flags with their defaults, then
    [flag.Parse] on the arguments of the process. *)
Definition init (args : list string) : ParseResult := Parse default_flags args.

(** The ways of writing a flag with its value. *)
Inductive FlagForm :=
| MinusEquals
| MinusMinusEquals
| MinusThenValue
| MinusMinusThenValue.

Definition render (a : FlagVar * string * FlagForm) : list string :=
  match a with
  | (v, value, MinusEquals) => ["-" +:+ flag_name v +:+ "=" +:+ value]
  | (v, value, MinusMinusEquals) => ["--" +:+ flag_name v +:+ "=" +:+ value]
  | (v, value, MinusThenValue) => ["-" +:+ flag_name v; value]
  | (v, value, MinusMinusThenValue) => ["--" +:+ flag_name v; value]
  end.

Definition assign (f : Flags) (a : FlagVar * string * FlagForm) : Flags :=
  Set_flag f a.1.1 a.1.2.

Definition has_equals (s : string) : bool :=
  match cut_equals s with Some _ => true | None => false end.

(** The store is in step with the listing [items], and [Get] works. *)
Definition in_step (fl : Flags) (items : list NamespaceObj) (w : World) : Prop :=
  namespaces w = Ok items ∧
  get_fault w = None ∧
  stored_value fl w = Some (Join (listed_names items) ",").

(** The five flags written out, each as [-name=value]. *)
Definition command_line (f : Flags) : list string :=
  ["-configmap-name=" +:+ configMapName f;
   "-configmap-namespace=" +:+ configMapNamespace f;
   "-label-selector=" +:+ labelSelector f;
   "-watch-key=" +:+ watchKey f;
   "-main-container=" +:+ mainContainerName f].

(** ** More worlds for the examples *)

(** Two processes match: [pgrep] prints two process ids. *)
Definition two_pids_world : World :=
  with_pgrep stale_world (Ok ("12" +:+ LF +:+ "345" +:+ LF)).

(** A stand-in for [filepath.Join] that is right on elements that need no
    cleaning. *)
Definition join_slash (elems : list string) : string := Join elems "/".

Definition local_config : restConfig :=
  {| Host := "https://127.0.0.1:6443"; BearerToken := "" |}.

(** Outside a cluster, with HOME set and KUBECONFIG not: only the default
    kubeconfig can be loaded. *)
Definition laptop_boot : Boot :=
  {| in_cluster := Err (errorString "unable to load in-cluster configuration");
     environ := {[ "HOME" := "/root" ]};
     build_config := λ path,
       if decide (path = "/root/.kube/config") then Ok local_config
       else Err (errorString "no such file or directory");
     new_client := λ _, None |}.

(** Outside a cluster, with no kubeconfig where HOME says. *)
Definition bare_boot : Boot :=
  {| in_cluster := Err (errorString "unable to load in-cluster configuration");
     environ := {[ "HOME" := "/nowhere" ]};
     build_config := λ path,
       if decide (path = "/root/.kube/config") then Ok local_config
       else Err (errorString "no such file or directory");
     new_client := λ _, None |}.

(** * Properties *)

(** ** The helpers *)

Lemma Join_nil sep : Join [] sep = "".
Proof. reflexivity. Qed.

Lemma Join_singleton s sep : Join [s] sep = s.
Proof. reflexivity. Qed.

Lemma Join_cons s t rest sep :
  Join (s :: t :: rest) sep = s +:+ sep +:+ Join (t :: rest) sep.
Proof. reflexivity. Qed.

Lemma foldl_snoc_names (items : list NamespaceObj) (acc : list string) :
  foldl (λ nsList ns, nsList ++ [Name (nsObjectMeta ns)]) acc items
  = acc ++ listed_names items.
Proof.
  revert acc. induction items as [|ns items IH]; intros acc; simpl.
  - by rewrite app_nil_r.
  - rewrite IH. by rewrite <- app_assoc.
Qed.

Lemma listed_names_mkNamespace (names : list string) :
  listed_names (mkNamespace <$> names) = names.
Proof.
  unfold listed_names. induction names as [|n names IH]; [done|].
  rewrite !fmap_cons. simpl. by f_equal.
Qed.

Lemma map_index_assign (m : gomap) (k v : string) (d : gomap) :
  map_assign m k v = Some d → map_index d k = v.
Proof.
  destruct m as [g|]; simpl; [|done].
  intros [= <-]. simpl. by rewrite lookup_insert_eq.
Qed.

Lemma map_index_assign_ne (m : gomap) (k k' v : string) (d : gomap) :
  map_assign m k v = Some d → k ≠ k' → map_index d k' = map_index m k'.
Proof.
  destruct m as [g|]; simpl; [|done].
  intros [= <-] Hne. simpl. by rewrite lookup_insert_ne.
Qed.

Example Join_three : Join ["a"; "b"; "c"] "," = "a,b,c".
Proof. reflexivity. Qed.

Example Fields_pids : Fields ("12" +:+ LF +:+ " 345" +:+ LF) = ["12"; "345"].
Proof. vm_compute. reflexivity. Qed.


(** ** Counting events *)

Lemma count_app (p : Event → bool) (l1 l2 : list Event) :
  count p (l1 ++ l2) = count p l1 + count p l2.
Proof. unfold count. by rewrite List.filter_app, length_app. Qed.

Lemma count_cons (p : Event → bool) (e : Event) (l : list Event) :
  count p (e :: l) = (if p e then 1 else 0) + count p l.
Proof. unfold count. simpl. by destruct (p e). Qed.

Lemma count_nil (p : Event → bool) : count p [] = 0.
Proof. reflexivity. Qed.

Lemma count_zero_not_elem (p : Event → bool) (tr : list Event) (e : Event) :
  count p tr = 0 → e ∈ tr → p e = false.
Proof.
  induction tr as [|x tr IH]; intros Hc Hin.
  - by apply elem_of_nil in Hin.
  - rewrite count_cons in Hc. apply elem_of_cons in Hin as [->|Hin].
    + destruct (p x); [simpl in Hc; lia | done].
    + apply IH; [|done]. destruct (p x); simpl in Hc; lia.
Qed.

(** With no update before it, a successful update is the one
    [after_update_ok] finds. *)
Lemma after_update_ok_split (pre post : list Event) (n : string) (cm : ConfigMap) :
  count is_update pre = 0 →
  after_update_ok (pre ++ EvUpdate n cm None :: post) = Some post.
Proof.
  induction pre as [|x pre IH]; intros Hc; [done|].
  rewrite count_cons in Hc.
  destruct x; simpl in *; try (apply IH; lia). lia.
Qed.

(** Only [kill] and printing follow the [pgrep]. *)
Lemma after_pgrep_counts (w : World) :
  count is_pgrep (after_pgrep w) = 0 ∧
  count is_write (after_pgrep w) = 0 ∧
  count is_create (after_pgrep w) = 0 ∧
  count is_update (after_pgrep w) = 0 ∧
  count is_get (after_pgrep w) = 0 ∧
  count is_list (after_pgrep w) = 0 ∧
  count is_kill (after_pgrep w) ≤ 1.
Proof.
  unfold after_pgrep.
  unfold count.
  destruct (pgrep_result w) as [out|e]; [|repeat split; simpl; lia].
  destruct (Fields out); [repeat split; simpl; lia|].
  destruct (kill_result w); repeat split; simpl; lia.
Qed.

Lemma after_pgrep_no_process (w : World) :
  no_process_found w →
  ∃ text, after_pgrep w = [EvPrint ("Error getting main container PID: " +:+ text +:+ LF)].
Proof.
  unfold no_process_found, after_pgrep.
  destruct (pgrep_result w) as [out|e].
  - intros ->. by eexists.
  - intros _. by eexists.
Qed.

Lemma after_pgrep_set_configmaps (w : World) m :
  after_pgrep (set_configmaps w m) = after_pgrep w.
Proof. reflexivity. Qed.

(** ** What the store answers *)

Lemma Get_answer_found (n nm : string) (w : World) (cm : ConfigMap) :
  Get_answer n nm w = Ok cm →
  get_fault w = None ∧
  ∃ o, configmaps w !! (n, nm) = Some o ∧ cm = object_at n nm o.
Proof.
  unfold Get_answer. destruct (get_fault w); [done|].
  destruct (configmaps w !! (n, nm)) as [o|]; [|done].
  intros [= <-]. eauto.
Qed.

Lemma Get_answer_absent (n nm : string) (w : World) :
  configmaps w !! (n, nm) = None → ∃ e, Get_answer n nm w = Err e.
Proof.
  unfold Get_answer. intros ->. destruct (get_fault w); eauto.
Qed.

Lemma Get_answer_present (n nm : string) (w : World) (o : StoredObject) :
  get_fault w = None → configmaps w !! (n, nm) = Some o →
  Get_answer n nm w = Ok (object_at n nm o).
Proof. unfold Get_answer. by intros -> ->. Qed.

Lemma Create_answer_ok (n : string) (cm cm' : ConfigMap) (w w' : World) :
  Create_answer n cm w = (Ok cm', w') →
  w' = set_configmaps w (<[(n, Name (cmObjectMeta cm)) := stored_of cm]> (configmaps w)).
Proof.
  unfold Create_answer. destruct (create_fault w); [done|].
  destruct (configmaps w !! _); [done|]. by intros [= _ <-].
Qed.

Lemma Create_answer_fresh (n : string) (cm : ConfigMap) (w : World) :
  create_fault w = None → configmaps w !! (n, Name (cmObjectMeta cm)) = None →
  Create_answer n cm w
  = (Ok cm, set_configmaps w (<[(n, Name (cmObjectMeta cm)) := stored_of cm]> (configmaps w))).
Proof. unfold Create_answer. by intros -> ->. Qed.

Lemma Update_answer_ok (n : string) (cm cm' : ConfigMap) (w w' : World) :
  Update_answer n cm w = (Ok cm', w') →
  w' = set_configmaps w (<[(n, Name (cmObjectMeta cm)) := stored_of cm]> (configmaps w)).
Proof.
  unfold Update_answer. destruct (update_fault w); [done|].
  destruct (configmaps w !! _); [|done].
  case_decide; [|done]. by intros [= _ <-].
Qed.

Lemma Update_answer_err (n : string) (cm : ConfigMap) (e : error) (w w' : World) :
  Update_answer n cm w = (Err e, w') → w' = w.
Proof.
  unfold Update_answer. destruct (update_fault w); [by intros [= _ <-]|].
  destruct (configmaps w !! _); [|by intros [= _ <-]].
  case_decide; [done|]. by intros [= _ <-].
Qed.

(** The object read by [Get] goes back, with new data, under the version
    it was read with. *)
Lemma Update_answer_of_read (n nm : string) (o : StoredObject) (d : gomap) (w : World) :
  update_fault w = None → configmaps w !! (n, nm) = Some o →
  Update_answer n (with_Data (object_at n nm o) d) w
  = (Ok (with_Data (object_at n nm o) d),
     set_configmaps w
       (<[(n, nm) := stored_of (with_Data (object_at n nm o) d)]> (configmaps w))).
Proof.
  unfold Update_answer. simpl. intros -> ->. by rewrite decide_True.
Qed.

Lemma after_pgrep_only (w : World) (p : Event → bool) :
  (∀ pid err, p (EvKill pid err) = false) →
  (∀ text, p (EvPrint text) = false) →
  count p (after_pgrep w) = 0.
Proof.
  intros Hk Hp. unfold after_pgrep, count.
  destruct (pgrep_result w) as [out|e]; simpl; [|by rewrite Hp].
  destruct (Fields out); simpl; [by rewrite Hp|].
  rewrite Hk. destruct (kill_result w); simpl; [by rewrite Hp|done].
Qed.

Section Properties.
Context (fl : Flags).

Local Abbreviation ns := (configMapNamespace fl).
Local Abbreviation name := (configMapName fl).
Local Abbreviation key := (watchKey fl).
Local Abbreviation sel := (labelSelector fl).

(** *** [getFilteredNamespaces] *)

Lemma getFilteredNamespaces_run (w : World) :
  getFilteredNamespaces fl w
  = (Returned (match namespaces w with
               | Ok items => Ok (listed_names items)
               | Err e => Err e
               end),
     w, [EvList (labelSelector fl) (err_of (namespaces w))]).
Proof.
  unfold getFilteredNamespaces, bind, Namespaces_List, ret.
  destruct (namespaces w) as [items|e]; simpl; [|done].
  by rewrite foldl_snoc_names.
Qed.

(** *** [killMainContainer] *)

Lemma killMainContainer_run (w : World) :
  killMainContainer fl w
  = (Returned tt, w,
     EvPrint ("Restarting main container..." +:+ LF)
     :: EvPgrep (mainContainerName fl) (err_of (pgrep_result w))
     :: after_pgrep w).
Proof.
  unfold killMainContainer, getMainContainerPID, after_pgrep, bind, Println,
    Printf, emit, exec_pgrep, exec_kill, ret.
  destruct (pgrep_result w) as [out|e]; simpl; [|done].
  destruct (Fields out) as [|pid rest]; simpl; [done|].
  by destruct (kill_result w).
Qed.

(** *** [createConfigMap] *)

Lemma createConfigMap_run (value : string) (w : World) :
  createConfigMap fl value w
  = (Returned tt, (Create_answer ns (created_object fl value) w).2,
     EvCreate ns (created_object fl value)
       (err_of (Create_answer ns (created_object fl value) w).1)
     :: match (Create_answer ns (created_object fl value) w).1 with
        | Err e => [EvPrint ("Error creating ConfigMap: " +:+ Error e +:+ LF)]
        | Ok _ => []
        end).
Proof.
  unfold createConfigMap, bind, ConfigMaps_Create, Printf, emit, ret.
  fold (created_object fl value).
  by destruct (Create_answer ns (created_object fl value) w) as [[cm|e] w'].
Qed.

(** *** [updateConfigMap]: every pass is one of the six cases *)

Lemma updateConfigMap_cases (w : World) :
  PassCase fl w (updateConfigMap fl w).
Proof.
  unfold updateConfigMap, defer, bind at 1, lock_Lock, lock_Unlock, emit.
  unfold bind at 1. rewrite getFilteredNamespaces_run.
  destruct (namespaces w) as [items|e] eqn:Hns; simpl.
  2: { by apply Pass_list_failed. }
  unfold bind at 1, ConfigMaps_Get.
  destruct (Get_answer ns name w) as [cm|e] eqn:Hget; simpl.
  2: { rewrite createConfigMap_run.
       destruct (Create_answer ns _ w) as [r w'] eqn:Hcr. simpl.
       by apply (Pass_get_failed fl w items e r w'). }
  destruct (decide (map_index (Data cm) key = Join (listed_names items) ","))
    as [Heq|Hne]; simpl.
  { by apply (Pass_in_sync fl w items cm). }
  destruct (Data cm) as [g|] eqn:Hd; simpl.
  2: { apply (Pass_nil_map fl w items cm); try done. by rewrite Hd. }
  unfold bind, ConfigMaps_Update.
  destruct (Update_answer ns _ w) as [[cm'|e] w'] eqn:Hup; simpl.
  - rewrite killMainContainer_run. simpl.
    apply (Pass_updated fl w items cm g cm' w'); try done. by rewrite Hd.
  - apply (Pass_update_failed fl w items cm g e w'); try done. by rewrite Hd.
Qed.

Ltac pass_cases w :=
  destruct (updateConfigMap_cases w)
    as [ e Hns
       | its e r w' Hns Hget Hcr
       | its cm Hns Hget Hsync
       | its cm Hns Hget Hne Hd
       | its cm g e w' Hns Hget Hne Hd Hup
       | its cm g cm' w' Hns Hget Hne Hd Hup ].

Ltac unfold_counts :=
  unfold trace_of, outcome_of, world_of, writes, creates, updates,
    signaler_calls, signals_sent in *;
  cbn [fst snd] in *.

(** Counts of a trace made of known events, of the events after a [pgrep]
    and of the print of a failed create. *)
Ltac count_trace :=
  unfold_counts;
  repeat first
    [ rewrite count_app
    | rewrite count_cons
    | rewrite count_nil
    | rewrite after_pgrep_only by done ];
  repeat match goal with
         | |- context [match ?r with Ok _ => _ | Err _ => _ end] => destruct r
         end;
  repeat first [ rewrite count_cons | rewrite count_nil ];
  cbn [is_list is_get is_create is_update is_pgrep is_kill is_write
       is_store_call is_failed_update orb];
  try lia.

(** Membership in the events after a [pgrep]. *)
Lemma elem_of_after_pgrep (w : World) (e : Event) :
  e ∈ after_pgrep w → is_kill e = true ∨ ∃ text, e = EvPrint text.
Proof.
  unfold after_pgrep.
  destruct (pgrep_result w) as [out|err].
  - destruct (Fields out) as [|pid rest].
    + intros ->%list_elem_of_singleton. eauto.
    + intros [->|Hin]%elem_of_cons; [by left|].
      destruct (kill_result w).
      * apply list_elem_of_singleton in Hin as ->. eauto.
      * by apply elem_of_nil in Hin.
  - intros ->%list_elem_of_singleton. eauto.
Qed.

(** Splits a membership in a trace of known events into its cases. *)
Ltac elem_cases H :=
  unfold trace_of in H; cbn [fst snd app] in H;
  repeat match type of H with
         | _ ∈ _ :: _ => apply elem_of_cons in H as [H|H]; [try discriminate H|]
         | _ ∈ _ ++ _ => apply elem_of_app in H as [H|H]
         | _ ∈ [] => by apply elem_of_nil in H
         | _ ∈ after_pgrep _ =>
             apply elem_of_after_pgrep in H as [H|[? H]]; discriminate H
         | _ ∈ match ?r with Ok _ => _ | Err _ => _ end => destruct r
         end.

(** A world whose store is in step with the listing: the pass reads and
    leaves. *)
Lemma pass_noop (w : World) (items : list NamespaceObj) :
  namespaces w = Ok items →
  get_fault w = None →
  stored_value fl w = Some (Join (listed_names items) ",") →
  updateConfigMap fl w
  = (Returned tt, w, [EvLock; EvList sel None; EvGet ns name None; EvUnlock]).
Proof.
  intros Hitems Hgf Hsv. unfold stored_value in Hsv.
  destruct (configmaps w !! (ns, name)) as [o|] eqn:Ho; [|done].
  simpl in Hsv. injection Hsv as Hsv.
  pose proof (Get_answer_present ns name w o Hgf Ho) as Hans.
  pass_cases w; try congruence.
  all: rewrite Hans in Hget; injection Hget as <-; simpl in Hne; congruence.
Qed.

(** A store without the object and without failures: the pass creates
    it. *)
Lemma pass_creates (w : World) (items : list NamespaceObj) :
  namespaces w = Ok items →
  get_fault w = None → create_fault w = None →
  configmaps w !! (ns, name) = None →
  updateConfigMap fl w
  = (Returned tt,
     set_configmaps w
       (<[(ns, name) := stored_of (created_object fl (Join (listed_names items) ","))]>
          (configmaps w)),
     [EvLock; EvList sel None; EvGet ns name (Some (errNotFound name));
      EvCreate ns (created_object fl (Join (listed_names items) ",")) None;
      EvUnlock]).
Proof.
  intros Hitems Hgf Hcf Habs.
  assert (Get_answer ns name w = Err (errNotFound name)) as Hans
    by (unfold Get_answer; by rewrite Hgf, Habs).
  pass_cases w; try congruence.
  assert (its = items) as -> by congruence.
  rewrite (Create_answer_fresh ns (created_object fl _) w Hcf Habs) in Hcr.
  injection Hcr as <- <-. rewrite Hans in Hget. by injection Hget as <-.
Qed.

(** A store whose object has another value under the watched key of a
    data map that is not nil, and no failures: the pass updates it and
    runs the signaler. *)
Lemma pass_updates (w : World) (items : list NamespaceObj)
    (o : StoredObject) (d : gmap string string) :
  namespaces w = Ok items →
  get_fault w = None → update_fault w = None →
  configmaps w !! (ns, name) = Some o →
  objData o = Some d →
  default "" (d !! key) ≠ Join (listed_names items) "," →
  updateConfigMap fl w
  = (Returned tt,
     set_configmaps w
       (<[(ns, name) :=
            stored_of (with_Data (object_at ns name o)
                         (Some (<[key := Join (listed_names items) ","]> d)))]>
          (configmaps w)),
     [EvLock; EvList sel None; EvGet ns name None;
      EvUpdate ns
        (with_Data (object_at ns name o)
           (Some (<[key := Join (listed_names items) ","]> d))) None;
      EvPrint ("Restarting main container..." +:+ LF);
      EvPgrep (mainContainerName fl) (err_of (pgrep_result w))]
     ++ after_pgrep w ++ [EvUnlock]).
Proof.
  intros Hitems Hgf Huf Ho Hg Hval.
  pose proof (Get_answer_present ns name w o Hgf Ho) as Hans.
  pass_cases w; try congruence.
  all: assert (its = items) as -> by congruence.
  all: rewrite Hans in Hget; injection Hget as <-; simpl in *.
  all: try (rewrite Hg in *; simpl in *; congruence).
  all: assert (g = d) as -> by congruence.
  all: rewrite (Update_answer_of_read ns name o _ w Huf Ho) in Hup.
  all: first [discriminate Hup | by injection Hup as <- <-].
Qed.

(** C5. Create before update, and no signal on creation: when the lister
    has answered and the store holds no object under the configured
    (namespace, name), the pass makes exactly one create call, no update
    call, and neither looks for the companion process nor signals it. *)
Theorem create_before_update (w : World) (items : list NamespaceObj) :
  namespaces w = Ok items →
  configmaps w !! (ns, name) = None →
  creates (trace_of (updateConfigMap fl w)) = 1 ∧
  updates (trace_of (updateConfigMap fl w)) = 0 ∧
  signaler_calls (trace_of (updateConfigMap fl w)) = 0 ∧
  signals_sent (trace_of (updateConfigMap fl w)) = 0.
Proof.
  intros Hitems Habs.
  pass_cases w;
    try (apply Get_answer_found in Hget as (_ & o & Ho & _); congruence).
  - congruence.
  - repeat split; count_trace.
Qed.

(** C4. Change triggers signal: wherever the trace of a pass has an
    [Update] that succeeded, no run of the signaler comes before it and
    exactly one comes after it; and a pass that finds the stored value
    equal to the computed one runs no signaler (and writes nothing). *)
Theorem change_triggers_signal (w : World) :
  (∀ pre n cm post,
     trace_of (updateConfigMap fl w) = pre ++ EvUpdate n cm None :: post →
     signaler_calls pre = 0 ∧ signaler_calls post = 1) ∧
  (∀ items cm,
     namespaces w = Ok items →
     Get_answer ns name w = Ok cm →
     map_index (Data cm) key = Join (listed_names items) "," →
     signaler_calls (trace_of (updateConfigMap fl w)) = 0 ∧
     signals_sent (trace_of (updateConfigMap fl w)) = 0 ∧
     writes (trace_of (updateConfigMap fl w)) = 0).
Proof.
  split.
  - intros pre n cm0 post Heq.
    assert (updates (trace_of (updateConfigMap fl w)) ≤ 1) as Hu
      by (pass_cases w; count_trace).
    assert (signaler_calls (trace_of (updateConfigMap fl w)) ≤ 1) as Hs
      by (pass_cases w; count_trace).
    unfold updates, signaler_calls in *. rewrite Heq in Hu, Hs.
    rewrite count_app, count_cons in Hu, Hs. simpl in Hu, Hs.
    assert (count is_update pre = 0) as Hpre by lia.
    pose proof (after_update_ok_split pre post n cm0 Hpre) as Hafter.
    rewrite <- Heq in Hafter. clear Heq.
    revert Hafter.
    pass_cases w; unfold trace_of; cbn [fst snd app after_update_ok];
      try discriminate.
    + destruct r; discriminate.
    + intros [= <-].
      match type of Hs with
      | _ + count is_pgrep ?post ≤ 1 =>
          assert (count is_pgrep post = 1) as Hpost by count_trace
      end.
      lia.
  - intros items0 cm0 Hitems Hans Hval.
    pass_cases w; try congruence.
    repeat split; count_trace.
Qed.

(** C6. Non-fatal errors end the pass and are not retried: when the lister
    fails, the pass makes no store call at all and returns; when an
    [Update] fails, whatever the error, the pass runs no signaler, sends
    no signal, leaves the world as it was and returns normally; and no
    pass makes any of its calls more than once. *)
Theorem nonfatal_errors_end_the_pass (w : World) :
  (∀ e, namespaces w = Err e →
     count is_store_call (trace_of (updateConfigMap fl w)) = 0 ∧
     signaler_calls (trace_of (updateConfigMap fl w)) = 0 ∧
     outcome_of (updateConfigMap fl w) = Returned tt) ∧
  (∀ n cm e, EvUpdate n cm (Some e) ∈ trace_of (updateConfigMap fl w) →
     signaler_calls (trace_of (updateConfigMap fl w)) = 0 ∧
     signals_sent (trace_of (updateConfigMap fl w)) = 0 ∧
     world_of (updateConfigMap fl w) = w ∧
     outcome_of (updateConfigMap fl w) = Returned tt) ∧
  (count is_list (trace_of (updateConfigMap fl w)) ≤ 1 ∧
   count is_get (trace_of (updateConfigMap fl w)) ≤ 1 ∧
   creates (trace_of (updateConfigMap fl w)) ≤ 1 ∧
   updates (trace_of (updateConfigMap fl w)) ≤ 1 ∧
   signaler_calls (trace_of (updateConfigMap fl w)) ≤ 1 ∧
   signals_sent (trace_of (updateConfigMap fl w)) ≤ 1).
Proof.
  split; [|split].
  - intros e0 Hfail. pass_cases w; try congruence.
    repeat split; count_trace.
  - intros n cm0 e0 Hin.
    pass_cases w; try (elem_cases Hin; fail).
    apply Update_answer_err in Hup as ->.
    repeat split; count_trace.
  - pose proof (after_pgrep_counts (world_of (updateConfigMap fl w)))
      as (_ & _ & _ & _ & _ & _ & Hkill).
    revert Hkill.
    pass_cases w; intros Hkill; repeat split; count_trace.
Qed.

(** C9. Frame of the update path: every [Update] a pass sends is for the
    configured namespace and carries the object [Get] returned, with the
    same metadata (so the same namespace and name), the computed value
    under the watched key, and every other key of the data map as it was
    read, present or absent. *)
Theorem update_frame (w : World) (n : string) (cm1 : ConfigMap) (err : option error) :
  EvUpdate n cm1 err ∈ trace_of (updateConfigMap fl w) →
  ∃ items cm0,
    namespaces w = Ok items ∧
    Get_answer ns name w = Ok cm0 ∧
    n = ns ∧
    cmObjectMeta cm1 = cmObjectMeta cm0 ∧
    Name (cmObjectMeta cm1) = name ∧
    Namespace (cmObjectMeta cm1) = ns ∧
    map_lookup (Data cm1) key = Some (Join (listed_names items) ",") ∧
    ∀ k, k ≠ key → map_lookup (Data cm1) k = map_lookup (Data cm0) k.
Proof.
  intros Hin.
  pass_cases w; try (elem_cases Hin; fail).
  all: elem_cases Hin; injection Hin as -> -> ->.
  all: exists its, cm; repeat split; try done.
  all: try (apply Get_answer_found in Hget as (_ & o & _ & ->); done).
  all: try (simpl; apply lookup_insert_eq).
  all: intros k Hk; rewrite Hd; simpl; by apply lookup_insert_ne.
Qed.

(** C7. A missing companion process is not fatal and undoes nothing: in a
    pass whose [Update] succeeded and whose [pgrep] reports no process,
    the pass returns normally, sends no signal, makes no store write other
    than that update, ends by printing the error and releasing the lock,
    and leaves the updated object in the store. *)
Theorem missing_process_keeps_write (w : World) (n : string) (cm1 : ConfigMap) :
  EvUpdate n cm1 None ∈ trace_of (updateConfigMap fl w) →
  no_process_found w →
  outcome_of (updateConfigMap fl w) = Returned tt ∧
  signals_sent (trace_of (updateConfigMap fl w)) = 0 ∧
  writes (trace_of (updateConfigMap fl w)) = 1 ∧
  (∃ pre text,
     trace_of (updateConfigMap fl w)
     = pre ++ [EvUpdate n cm1 None;
               EvPrint ("Restarting main container..." +:+ LF);
               EvPgrep (mainContainerName fl) (err_of (pgrep_result w));
               EvPrint ("Error getting main container PID: " +:+ text +:+ LF);
               EvUnlock]) ∧
  configmaps (world_of (updateConfigMap fl w)) !! (ns, name) = Some (stored_of cm1) ∧
  stored_value fl (world_of (updateConfigMap fl w)) = Some (map_index (Data cm1) key).
Proof.
  intros Hin Hnone.
  pass_cases w; try (elem_cases Hin; fail).
  elem_cases Hin. injection Hin as -> ->.
  apply Update_answer_ok in Hup as ->.
  apply Get_answer_found in Hget as (_ & o & Ho & ->).
  destruct (after_pgrep_no_process w Hnone) as [text Htext].
  unfold outcome_of, world_of, trace_of, stored_value. cbn [fst snd].
  rewrite after_pgrep_set_configmaps, Htext. simpl.
  rewrite lookup_insert_eq. simpl.
  repeat split; try done.
  by exists [EvLock; EvList sel None; EvGet ns name None], text.
Qed.

(** C3, as the code has it. Idempotence for a listing that comes back the
    same: with a lister that answers, a store that reports no
    failure, and a stored object that is absent or holds, in a data map
    that is not nil, a value other than the computed one, the first pass
    makes exactly one store write; run again on the world it leaves, with
    the same listing, the pass makes no write and runs no signaler, so the
    two passes make one write in total, and the store holds the computed
    value. *)
Theorem idempotence (w : World) (items : list NamespaceObj) :
  namespaces w = Ok items →
  get_fault w = None → create_fault w = None → update_fault w = None →
  (∀ o, configmaps w !! (ns, name) = Some o → is_Some (objData o)) →
  stored_value fl w ≠ Some (Join (listed_names items) ",") →
  writes (trace_of (updateConfigMap fl w)) = 1 ∧
  writes (trace_of (updateConfigMap fl (world_of (updateConfigMap fl w)))) = 0 ∧
  writes (trace_of (updateConfigMap fl w)
          ++ trace_of (updateConfigMap fl (world_of (updateConfigMap fl w)))) = 1 ∧
  signaler_calls (trace_of (updateConfigMap fl (world_of (updateConfigMap fl w)))) = 0 ∧
  stored_value fl (world_of (updateConfigMap fl (world_of (updateConfigMap fl w))))
  = Some (Join (listed_names items) ",").
Proof.
  intros Hitems Hgf Hcf Huf Hdata Hstale.
  assert (writes (trace_of (updateConfigMap fl w)) = 1 ∧
          namespaces (world_of (updateConfigMap fl w)) = Ok items ∧
          get_fault (world_of (updateConfigMap fl w)) = None ∧
          stored_value fl (world_of (updateConfigMap fl w))
          = Some (Join (listed_names items) ",")) as (Hw1 & Hitems1 & Hgf1 & Hsv1).
  { pose proof Hstale as Hstale'. unfold stored_value in Hstale'.
    pass_cases w.
    - congruence.
    - assert (its = items) as -> by congruence.
      assert (configmaps w !! (ns, name) = None) as Habs.
      { destruct (configmaps w !! (ns, name)) as [o|] eqn:Ho; [|done].
        by rewrite (Get_answer_present ns name w o Hgf Ho) in Hget. }
      rewrite (Create_answer_fresh ns (created_object fl _) w Hcf Habs) in Hcr.
      injection Hcr as <- <-.
      unfold world_of, stored_value. cbn [fst snd]. simpl.
      rewrite lookup_insert_eq. simpl. rewrite lookup_singleton_eq.
      repeat split; try done; count_trace.
    - assert (its = items) as -> by congruence.
      apply Get_answer_found in Hget as (_ & o & Ho & ->).
      rewrite Ho in Hstale'. simpl in *. congruence.
    - apply Get_answer_found in Hget as (_ & o & Ho & ->).
      destruct (Hdata o Ho) as [d Hsome]. simpl in Hd. congruence.
    - apply Get_answer_found in Hget as (_ & o & Ho & ->).
      rewrite (Update_answer_of_read ns name o _ w Huf Ho) in Hup. discriminate.
    - assert (its = items) as -> by congruence.
      apply Update_answer_ok in Hup as ->.
      apply Get_answer_found in Hget as (_ & o & Ho & ->).
      unfold world_of, stored_value. cbn [fst snd]. simpl.
      rewrite lookup_insert_eq. simpl. rewrite lookup_insert_eq.
      repeat split; try done; count_trace. }
  rewrite (pass_noop _ items Hitems1 Hgf1 Hsv1).
  unfold writes in *. rewrite count_app, Hw1.
  unfold world_of at 1, trace_of at 1 2. cbn [fst snd].
  repeat split; try done.
Qed.

(** C8, as the code has it, the names being listed a then b. From empty
    to non-empty: joining no name gives the empty string;
    with no namespace listed, no object in the store and no failure, the
    pass creates the object with the empty string under the watched key;
    a following pass in which the lister answers a then b sends one
    update that carries a,b under the watched key, leaves a,b in the
    store and runs the signaler exactly once. *)
Theorem empty_then_nonempty (w : World) (items2 : list NamespaceObj) :
  namespaces w = Ok [] →
  get_fault w = None → create_fault w = None → update_fault w = None →
  configmaps w !! (ns, name) = None →
  listed_names items2 = ["a"; "b"] →
  Join [] "," = "" ∧
  trace_of (updateConfigMap fl w)
  = [EvLock; EvList sel None; EvGet ns name (Some (errNotFound name));
     EvCreate ns (created_object fl "") None; EvUnlock] ∧
  stored_value fl (world_of (updateConfigMap fl w)) = Some "" ∧
  (∃ cm,
     EvUpdate ns cm None
       ∈ trace_of (updateConfigMap fl
                     (set_namespaces (world_of (updateConfigMap fl w)) (Ok items2))) ∧
     map_lookup (Data cm) key = Some "a,b") ∧
  updates (trace_of (updateConfigMap fl
                       (set_namespaces (world_of (updateConfigMap fl w)) (Ok items2)))) = 1 ∧
  creates (trace_of (updateConfigMap fl
                       (set_namespaces (world_of (updateConfigMap fl w)) (Ok items2)))) = 0 ∧
  signaler_calls
    (trace_of (updateConfigMap fl
                 (set_namespaces (world_of (updateConfigMap fl w)) (Ok items2)))) = 1 ∧
  stored_value fl
    (world_of (updateConfigMap fl
                 (set_namespaces (world_of (updateConfigMap fl w)) (Ok items2))))
  = Some "a,b".
Proof.
  intros Hitems Hgf Hcf Huf Habs Hnames.
  pose proof (pass_creates w [] Hitems Hgf Hcf Habs) as Hrun1.
  change (Join (listed_names []) ",") with "" in Hrun1.
  rewrite Hrun1. unfold world_of, trace_of. cbn [fst snd].
  set (w2 := set_namespaces _ (Ok items2)).
  assert (configmaps w2 !! (ns, name) = Some (stored_of (created_object fl "")))
    as Ho2 by (simpl; apply lookup_insert_eq).
  pose proof (pass_updates w2 items2 _ {[key := ""]} eq_refl Hgf Huf Ho2 eq_refl)
    as Hrun2.
  rewrite Hnames in Hrun2. change (Join ["a"; "b"] ",") with "a,b" in Hrun2.
  rewrite Hrun2 by (rewrite lookup_singleton_eq; simpl; discriminate).
  cbn [fst snd].
  split; [done|]. split; [done|].
  split; [unfold stored_value; simpl; rewrite lookup_insert_eq; simpl;
          by rewrite lookup_singleton_eq|].
  split.
  { eexists. split.
    - cbn [app]. do 3 apply list_elem_of_further. apply list_elem_of_here.
    - simpl. apply lookup_insert_eq. }
  unfold stored_value. simpl.
  rewrite lookup_insert_eq. simpl. rewrite lookup_insert_eq.
  repeat split; count_trace.
Qed.

(** C1, as the code has it. The value a pass computes is the names joined
    by commas in the order in which the lister returned them: every
    object the pass sends to [Create] or [Update] carries that join under
    the watched key; and when the store already holds that join, the pass
    writes nothing, runs no signaler and leaves the world as it was. *)
Theorem value_follows_listing_order (w : World) (items : list NamespaceObj) :
  namespaces w = Ok items →
  (∀ n cm err,
     EvCreate n cm err ∈ trace_of (updateConfigMap fl w) ∨
     EvUpdate n cm err ∈ trace_of (updateConfigMap fl w) →
     map_lookup (Data cm) key = Some (Join (listed_names items) ",")) ∧
  (get_fault w = None →
   stored_value fl w = Some (Join (listed_names items) ",") →
   writes (trace_of (updateConfigMap fl w)) = 0 ∧
   signaler_calls (trace_of (updateConfigMap fl w)) = 0 ∧
   signals_sent (trace_of (updateConfigMap fl w)) = 0 ∧
   world_of (updateConfigMap fl w) = w).
Proof.
  intros Hitems. split.
  - intros n cm0 err [Hin|Hin].
    + pass_cases w; try (elem_cases Hin; fail).
      assert (its = items) as -> by congruence.
      elem_cases Hin. injection Hin as -> -> ->.
      simpl. apply lookup_singleton_eq.
    + pass_cases w; try (elem_cases Hin; fail).
      all: assert (its = items) as -> by congruence.
      all: elem_cases Hin; injection Hin as -> -> ->.
      all: simpl; apply lookup_insert_eq.
  - intros Hgf Hsv. by rewrite (pass_noop w items Hitems Hgf Hsv).
Qed.

(** *** Two paths the statements above leave aside *)

(** Whatever the error of [Get], the pass goes on to [Create]. *)
Lemma get_error_creates (w : World) (items : list NamespaceObj) (e0 : error) :
  namespaces w = Ok items →
  Get_answer ns name w = Err e0 →
  creates (trace_of (updateConfigMap fl w)) = 1 ∧
  updates (trace_of (updateConfigMap fl w)) = 0.
Proof.
  intros Hitems Hans. pass_cases w; try congruence.
  split; count_trace.
Qed.

(** A pass panics exactly when it has to change the value of an object
    whose data map is nil. *)
Lemma pass_panics_iff (w : World) :
  (∃ msg, outcome_of (updateConfigMap fl w) = Panicked msg) ↔
  ∃ items cm,
    namespaces w = Ok items ∧
    Get_answer ns name w = Ok cm ∧
    Data cm = None ∧
    Join (listed_names items) "," ≠ "".
Proof.
  split.
  - intros [msg Hp]. revert Hp.
    pass_cases w; unfold outcome_of; cbn [fst]; try discriminate.
    intros _. exists its, cm. repeat split; try done.
    intros Hv. apply Hne. by rewrite Hd, Hv.
  - intros (items0 & cm0 & Hitems & Hans & Hnil & Hv).
    pass_cases w; try congruence.
    + assert (cm = cm0) as -> by congruence.
      assert (its = items0) as -> by congruence.
      rewrite Hnil in Hsync. simpl in Hsync. congruence.
    + by eexists.
Qed.
End Properties.

(** ** The properties at concrete worlds *)

Lemma create_before_update_witness :
  namespaces absent_world = Ok (mkNamespace <$> ["a"; "b"]) ∧
  configmaps absent_world !! ("vault", "watch-namespace-config") = None ∧
  creates (trace_of (updateConfigMap default_flags absent_world)) = 1 ∧
  updates (trace_of (updateConfigMap default_flags absent_world)) = 0 ∧
  signaler_calls (trace_of (updateConfigMap default_flags absent_world)) = 0 ∧
  signals_sent (trace_of (updateConfigMap default_flags absent_world)) = 0.
Proof.
  split; [reflexivity|]. split; [reflexivity|].
  apply (create_before_update default_flags absent_world (mkNamespace <$> ["a"; "b"]));
    reflexivity.
Defined.

Lemma change_triggers_signal_witness :
  (trace_of (updateConfigMap default_flags stale_world)
   = [EvLock; EvList "foo=bar" None; EvGet "vault" "watch-namespace-config" None]
     ++ EvUpdate "vault" stale_updated None
     :: [EvPrint ("Restarting main container..." +:+ LF);
         EvPgrep "main-container" None; EvKill "4242" None; EvUnlock]) ∧
  (signaler_calls
     [EvLock; EvList "foo=bar" None; EvGet "vault" "watch-namespace-config" None] = 0 ∧
   signaler_calls
     [EvPrint ("Restarting main container..." +:+ LF);
      EvPgrep "main-container" None; EvKill "4242" None; EvUnlock] = 1) ∧
  (signaler_calls (trace_of (updateConfigMap default_flags synced_world)) = 0 ∧
   signals_sent (trace_of (updateConfigMap default_flags synced_world)) = 0 ∧
   writes (trace_of (updateConfigMap default_flags synced_world)) = 0).
Proof.
  split; [vm_compute; reflexivity|]. split.
  - apply (proj1 (change_triggers_signal default_flags stale_world) _ "vault"
             stale_updated).
    vm_compute. reflexivity.
  - apply (proj2 (change_triggers_signal default_flags synced_world)
             (mkNamespace <$> ["a"; "b"])
             (object_at "vault" "watch-namespace-config"
                (stored_obj (Some {[ "WATCH_NAMESPACE" := "a,b" ]}))));
      reflexivity.
Defined.

Lemma nonfatal_errors_end_the_pass_witness :
  (namespaces lister_down_world = Err errTimeout ∧
   count is_store_call (trace_of (updateConfigMap default_flags lister_down_world)) = 0 ∧
   signaler_calls (trace_of (updateConfigMap default_flags lister_down_world)) = 0 ∧
   outcome_of (updateConfigMap default_flags lister_down_world) = Returned tt) ∧
  (EvUpdate "vault" stale_updated (Some (errConflict "watch-namespace-config"))
     ∈ trace_of (updateConfigMap default_flags conflict_world) ∧
   signaler_calls (trace_of (updateConfigMap default_flags conflict_world)) = 0 ∧
   signals_sent (trace_of (updateConfigMap default_flags conflict_world)) = 0 ∧
   world_of (updateConfigMap default_flags conflict_world) = conflict_world ∧
   outcome_of (updateConfigMap default_flags conflict_world) = Returned tt).
Proof.
  split.
  - split; [reflexivity|].
    apply (proj1 (nonfatal_errors_end_the_pass default_flags lister_down_world) errTimeout).
    reflexivity.
  - assert (EvUpdate "vault" stale_updated (Some (errConflict "watch-namespace-config"))
              ∈ trace_of (updateConfigMap default_flags conflict_world)) as Hin.
    { vm_compute. do 3 apply list_elem_of_further. apply list_elem_of_here. }
    split; [exact Hin|].
    exact (proj1 (proj2 (nonfatal_errors_end_the_pass default_flags conflict_world))
             _ _ _ Hin).
Defined.

Lemma update_frame_witness :
  EvUpdate "vault" stale_updated None
    ∈ trace_of (updateConfigMap default_flags stale_world) ∧
  ∃ items cm0,
    namespaces stale_world = Ok items ∧
    Get_answer "vault" "watch-namespace-config" stale_world = Ok cm0 ∧
    "vault" = "vault" ∧
    cmObjectMeta stale_updated = cmObjectMeta cm0 ∧
    Name (cmObjectMeta stale_updated) = "watch-namespace-config" ∧
    Namespace (cmObjectMeta stale_updated) = "vault" ∧
    map_lookup (Data stale_updated) "WATCH_NAMESPACE"
    = Some (Join (listed_names items) ",") ∧
    ∀ k, k ≠ "WATCH_NAMESPACE" →
         map_lookup (Data stale_updated) k = map_lookup (Data cm0) k.
Proof.
  assert (EvUpdate "vault" stale_updated None
            ∈ trace_of (updateConfigMap default_flags stale_world)) as Hin.
  { vm_compute. do 3 apply list_elem_of_further. apply list_elem_of_here. }
  split; [exact Hin|].
  exact (update_frame default_flags stale_world _ _ _ Hin).
Defined.

Lemma missing_process_keeps_write_witness :
  EvUpdate "vault" stale_updated None
    ∈ trace_of (updateConfigMap default_flags no_process_world) ∧
  no_process_found no_process_world ∧
  outcome_of (updateConfigMap default_flags no_process_world) = Returned tt ∧
  signals_sent (trace_of (updateConfigMap default_flags no_process_world)) = 0 ∧
  writes (trace_of (updateConfigMap default_flags no_process_world)) = 1 ∧
  (∃ pre text,
     trace_of (updateConfigMap default_flags no_process_world)
     = pre ++ [EvUpdate "vault" stale_updated None;
               EvPrint ("Restarting main container..." +:+ LF);
               EvPgrep "main-container" (err_of (pgrep_result no_process_world));
               EvPrint ("Error getting main container PID: " +:+ text +:+ LF);
               EvUnlock]) ∧
  configmaps (world_of (updateConfigMap default_flags no_process_world))
    !! ("vault", "watch-namespace-config") = Some (stored_of stale_updated) ∧
  stored_value default_flags (world_of (updateConfigMap default_flags no_process_world))
  = Some (map_index (Data stale_updated) "WATCH_NAMESPACE").
Proof.
  assert (EvUpdate "vault" stale_updated None
            ∈ trace_of (updateConfigMap default_flags no_process_world)) as Hin.
  { vm_compute. do 3 apply list_elem_of_further. apply list_elem_of_here. }
  split; [exact Hin|]. split; [exact I|].
  exact (missing_process_keeps_write default_flags no_process_world _ _ Hin I).
Defined.

Lemma idempotence_witness :
  namespaces stale_world = Ok (mkNamespace <$> ["a"; "b"]) ∧
  configmaps stale_world !! ("vault", "watch-namespace-config")
  = Some (stored_obj (Some {[ "WATCH_NAMESPACE" := "a"; "OTHER" := "x" ]})) ∧
  stored_value default_flags stale_world = Some "a" ∧
  writes (trace_of (updateConfigMap default_flags stale_world)) = 1 ∧
  writes (trace_of (updateConfigMap default_flags
                      (world_of (updateConfigMap default_flags stale_world)))) = 0 ∧
  writes (trace_of (updateConfigMap default_flags stale_world)
          ++ trace_of (updateConfigMap default_flags
                         (world_of (updateConfigMap default_flags stale_world)))) = 1 ∧
  signaler_calls
    (trace_of (updateConfigMap default_flags
                 (world_of (updateConfigMap default_flags stale_world)))) = 0 ∧
  stored_value default_flags
    (world_of (updateConfigMap default_flags
                 (world_of (updateConfigMap default_flags stale_world))))
  = Some "a,b".
Proof.
  assert (stored_value default_flags stale_world
          ≠ Some (Join (listed_names (mkNamespace <$> ["a"; "b"])) ",")) as Hstale.
  { intros H. vm_compute in H. discriminate H. }
  assert (∀ o, configmaps stale_world !! ("vault", "watch-namespace-config") = Some o →
               is_Some (objData o)) as Hdata.
  { intros o [= <-]. by eexists. }
  split; [reflexivity|]. split; [reflexivity|]. split; [reflexivity|].
  exact (idempotence default_flags stale_world (mkNamespace <$> ["a"; "b"])
           eq_refl eq_refl eq_refl eq_refl Hdata Hstale).
Defined.

Lemma empty_then_nonempty_witness :
  namespaces empty_world = Ok [] ∧
  configmaps empty_world !! ("vault", "watch-namespace-config") = None ∧
  listed_names (mkNamespace <$> ["a"; "b"]) = ["a"; "b"] ∧
  trace_of (updateConfigMap default_flags empty_world)
  = [EvLock; EvList "foo=bar" None;
     EvGet "vault" "watch-namespace-config"
       (Some (errNotFound "watch-namespace-config"));
     EvCreate "vault" (created_object default_flags "") None; EvUnlock] ∧
  stored_value default_flags (world_of (updateConfigMap default_flags empty_world))
  = Some "" ∧
  signaler_calls
    (trace_of (updateConfigMap default_flags
                 (set_namespaces (world_of (updateConfigMap default_flags empty_world))
                    (Ok (mkNamespace <$> ["a"; "b"]))))) = 1 ∧
  stored_value default_flags
    (world_of (updateConfigMap default_flags
                 (set_namespaces (world_of (updateConfigMap default_flags empty_world))
                    (Ok (mkNamespace <$> ["a"; "b"])))))
  = Some "a,b".
Proof.
  pose proof (empty_then_nonempty default_flags empty_world (mkNamespace <$> ["a"; "b"])
                eq_refl eq_refl eq_refl eq_refl eq_refl eq_refl)
    as (_ & Htr & Hsv & _ & _ & _ & Hsig & Hsv2).
  repeat split; try reflexivity; assumption.
Defined.

Lemma value_follows_listing_order_witness :
  namespaces synced_world = Ok (mkNamespace <$> ["a"; "b"]) ∧
  stored_value default_flags synced_world = Some "a,b" ∧
  writes (trace_of (updateConfigMap default_flags synced_world)) = 0 ∧
  signaler_calls (trace_of (updateConfigMap default_flags synced_world)) = 0 ∧
  signals_sent (trace_of (updateConfigMap default_flags synced_world)) = 0 ∧
  world_of (updateConfigMap default_flags synced_world) = synced_world.
Proof.
  split; [reflexivity|]. split; [reflexivity|].
  exact (proj2 (value_follows_listing_order default_flags synced_world
                  (mkNamespace <$> ["a"; "b"]) eq_refl) eq_refl eq_refl).
Defined.

(** C1, as the claim has it, fails. The store holds a,b and the lister
    answers the same two names as b then a: the value computed is b,a, not
    a,b, and the pass updates the store and signals the process. *)
Lemma reordered_listing_rewrites :
  ["b"; "a"] ≡ₚ ["a"; "b"] ∧
  namespaces reordered_world = Ok (mkNamespace <$> ["b"; "a"]) ∧
  stored_value default_flags reordered_world = Some "a,b" ∧
  Join ["b"; "a"] "," = "b,a" ∧
  Join ["b"; "a"] "," ≠ Join ["a"; "b"] "," ∧
  writes (trace_of (updateConfigMap default_flags reordered_world)) = 1 ∧
  signaler_calls (trace_of (updateConfigMap default_flags reordered_world)) = 1 ∧
  signals_sent (trace_of (updateConfigMap default_flags reordered_world)) = 1 ∧
  stored_value default_flags (world_of (updateConfigMap default_flags reordered_world))
  = Some "b,a".
Proof.
  split; [apply Permutation_swap|].
  repeat split; try reflexivity.
  intros H. discriminate H.
Qed.

(** C3, as the claim has it, fails. The membership set does not change
    but the lister answers it in another order the second time: from an
    empty store the first pass, listing a then b, creates the object with
    a,b; the second pass, listing b then a, finds another value than the
    one it computes, updates the store to b,a and signals the process.
    Two writes, not one. *)
Lemma relisted_set_is_written_twice :
  ["b"; "a"] ≡ₚ ["a"; "b"] ∧
  namespaces absent_world = Ok (mkNamespace <$> ["a"; "b"]) ∧
  writes (trace_of (updateConfigMap default_flags absent_world)) = 1 ∧
  stored_value default_flags (world_of (updateConfigMap default_flags absent_world))
  = Some "a,b" ∧
  writes (trace_of (updateConfigMap default_flags
                      (set_namespaces (world_of (updateConfigMap default_flags absent_world))
                         (Ok (mkNamespace <$> ["b"; "a"]))))) = 1 ∧
  signaler_calls
    (trace_of (updateConfigMap default_flags
                 (set_namespaces (world_of (updateConfigMap default_flags absent_world))
                    (Ok (mkNamespace <$> ["b"; "a"]))))) = 1 ∧
  writes (trace_of (updateConfigMap default_flags absent_world)
          ++ trace_of (updateConfigMap default_flags
                         (set_namespaces
                            (world_of (updateConfigMap default_flags absent_world))
                            (Ok (mkNamespace <$> ["b"; "a"]))))) = 2 ∧
  stored_value default_flags
    (world_of (updateConfigMap default_flags
                 (set_namespaces (world_of (updateConfigMap default_flags absent_world))
                    (Ok (mkNamespace <$> ["b"; "a"])))))
  = Some "b,a".
Proof.
  split; [apply Permutation_swap|].
  repeat split; vm_compute; reflexivity.
Qed.

(** C8, as the claim has it, fails. After the object was created with
    the empty string, the members a and b are listed b then a: the pass
    updates the stored value to b,a, which is not a,b. *)
Lemma empty_then_reordered_stores_b_a :
  ["b"; "a"] ≡ₚ ["a"; "b"] ∧
  namespaces empty_world = Ok [] ∧
  stored_value default_flags (world_of (updateConfigMap default_flags empty_world))
  = Some "" ∧
  stored_value default_flags
    (world_of (updateConfigMap default_flags
                 (set_namespaces (world_of (updateConfigMap default_flags empty_world))
                    (Ok (mkNamespace <$> ["b"; "a"])))))
  = Some "b,a" ∧
  "b,a" ≠ "a,b" ∧
  updates
    (trace_of (updateConfigMap default_flags
                 (set_namespaces (world_of (updateConfigMap default_flags empty_world))
                    (Ok (mkNamespace <$> ["b"; "a"]))))) = 1 ∧
  signaler_calls
    (trace_of (updateConfigMap default_flags
                 (set_namespaces (world_of (updateConfigMap default_flags empty_world))
                    (Ok (mkNamespace <$> ["b"; "a"]))))) = 1.
Proof.
  split; [apply Permutation_swap|].
  repeat split; try (vm_compute; reflexivity).
  intros H. discriminate H.
Qed.

(** C2 at a failing input. The object exists and is in step, and [Get]
    fails with a timeout, which is not NotFound: the pass goes on to
    [Create], which the store refuses because the object is there. *)
Lemma transient_get_error_still_creates :
  Get_answer "vault" "watch-namespace-config" get_timeout_world = Err errTimeout ∧
  trace_of (updateConfigMap default_flags get_timeout_world)
  = [EvLock; EvList "foo=bar" None;
     EvGet "vault" "watch-namespace-config" (Some errTimeout);
     EvCreate "vault" (created_object default_flags "a,b")
       (Some (errAlreadyExists "watch-namespace-config"));
     EvPrint ("Error creating ConfigMap: "
              +:+ Error (errAlreadyExists "watch-namespace-config") +:+ LF);
     EvUnlock] ∧
  creates (trace_of (updateConfigMap default_flags get_timeout_world)) = 1.
Proof. repeat split; vm_compute; reflexivity. Qed.

(** C10 at a failing input. The stored object has a nil data map and one
    namespace is listed: the comparison reads the empty string, the values
    differ, and the assignment into the nil map panics before any
    [Update]; the deferred unlock still runs. With no namespace listed
    the values are equal and the same object makes the pass a no-op. *)
Lemma nil_data_map_panics :
  Get_answer "vault" "watch-namespace-config" (nil_data_world ["a"])
  = Ok (object_at "vault" "watch-namespace-config" (stored_obj None)) ∧
  map_index (Data (object_at "vault" "watch-namespace-config" (stored_obj None)))
    "WATCH_NAMESPACE" = "" ∧
  outcome_of (updateConfigMap default_flags (nil_data_world ["a"]))
  = Panicked "assignment to entry in nil map" ∧
  trace_of (updateConfigMap default_flags (nil_data_world ["a"]))
  = [EvLock; EvList "foo=bar" None; EvGet "vault" "watch-namespace-config" None;
     EvUnlock] ∧
  outcome_of (updateConfigMap default_flags (nil_data_world [])) = Returned tt ∧
  writes (trace_of (updateConfigMap default_flags (nil_data_world []))) = 0.
Proof. repeat split; vm_compute; reflexivity. Qed.

(** * Further properties *)

(** ** What the store answers, and what it changes *)

Lemma Create_answer_world (n : string) (cm : ConfigMap) (w w' : World) (r : result ConfigMap) :
  Create_answer n cm w = (r, w') →
  (r = Ok cm ∧
   w' = set_configmaps w (<[(n, Name (cmObjectMeta cm)) := stored_of cm]> (configmaps w)))
  ∨ (∃ e, r = Err e ∧ w' = w).
Proof.
  unfold Create_answer. destruct (create_fault w); [intros [= <- <-]; eauto|].
  destruct (configmaps w !! _); intros [= <- <-]; eauto.
Qed.

Lemma Update_answer_world (n : string) (cm : ConfigMap) (w w' : World) (r : result ConfigMap) :
  Update_answer n cm w = (r, w') →
  (r = Ok cm ∧ is_Some (configmaps w !! (n, Name (cmObjectMeta cm))) ∧
   w' = set_configmaps w (<[(n, Name (cmObjectMeta cm)) := stored_of cm]> (configmaps w)))
  ∨ (∃ e, r = Err e ∧ w' = w).
Proof.
  unfold Update_answer. destruct (update_fault w); [intros [= <- <-]; eauto|].
  destruct (configmaps w !! _) eqn:Ho; [|intros [= <- <-]; eauto].
  case_decide; intros [= <- <-]; eauto.
Qed.

(** ** Strings *)

Lemma append_cons (c : ascii) (a b : string) : String c a +:+ b = String c (a +:+ b).
Proof. reflexivity. Qed.

Lemma append_empty_l (b : string) : "" +:+ b = b.
Proof. reflexivity. Qed.

Lemma append_empty_r (a : string) : a +:+ "" = a.
Proof. induction a as [|c a IH]; [done|]. by rewrite append_cons, IH. Qed.

Lemma append_assoc (a b c : string) : (a +:+ b) +:+ c = a +:+ (b +:+ c).
Proof. induction a as [|x a IH]; [done|]. by rewrite !append_cons, IH. Qed.

Lemma has_space_app (a b : string) :
  has_space (a +:+ b) = has_space a || has_space b.
Proof.
  induction a as [|c a IH]; [done|].
  rewrite append_cons. simpl. rewrite IH. by rewrite orb_assoc.
Qed.

(** On the fast path every field is a word: not empty and without an
    ASCII blank. *)
Lemma Fields_from_words (s cur : string) (f : string) :
  has_space cur = false →
  f ∈ Fields_from cur s →
  f ≠ "" ∧ has_space f = false.
Proof.
  revert cur. induction s as [|c s IH]; intros cur Hcur; simpl.
  - case_decide; [by intros ?%elem_of_nil|].
    by intros ->%list_elem_of_singleton.
  - destruct (asciiSpace c) eqn:Hc.
    + case_decide.
      * by apply IH.
      * intros [->|Hin]%elem_of_cons; [done|]. by apply (IH "").
    + apply IH. rewrite has_space_app, Hcur. simpl. by rewrite Hc.
Qed.

(** A word at the start of the text joins the field being read. *)
Lemma Fields_from_word (p s cur : string) :
  has_space p = false →
  Fields_from cur (p +:+ s) = Fields_from (cur +:+ p) s.
Proof.
  revert cur. induction p as [|c p IH]; intros cur Hp.
  - by rewrite append_empty_l, append_empty_r.
  - rewrite append_cons. simpl. simpl in Hp. apply orb_false_elim in Hp as [Hc Hp].
    rewrite Hc, IH by done. by rewrite append_assoc.
Qed.

(** *** Bytes and runes *)

Ltac all_bytes c :=
  destruct c as [[] [] [] [] [] [] [] []]; vm_compute; try done.

Lemma asciiSpace_is_ascii (c : ascii) :
  asciiSpace c = true → (N_of_ascii c <? 128)%N = true.
Proof. all_bytes c. Qed.

Lemma IsSpace_ascii (c : ascii) :
  (N_of_ascii c <? 128)%N = true → IsSpace (N_of_ascii c) = asciiSpace c.
Proof. all_bytes c. Qed.

Lemma is_cont_not_space (c : ascii) :
  is_cont (N_of_ascii c) = true → asciiSpace c = false.
Proof. all_bytes c. Qed.

(** A rune that is not white space has no ASCII blank among its bytes. *)
Lemma decoderune_bytes (c : ascii) (rest : string) :
  IsSpace (decoderune (String c rest)).1 = false →
  asciiSpace c = false ∧
  no_space_prefix (pred (decoderune (String c rest)).2) rest = true.
Proof.
  unfold decoderune.
  destruct (N_of_ascii c <? 128)%N eqn:Hc.
  { cbn [fst snd pred]. intros H. by rewrite IsSpace_ascii in H. }
  assert (asciiSpace c = false) as Hsp.
  { destruct (asciiSpace c) eqn:E; [|done].
    apply asciiSpace_is_ascii in E. congruence. }
  intros _. split; [done|].
  repeat match goal with
         | |- context [if ?b then _ else _] => destruct b eqn:?
         | |- context [match ?r with EmptyString => _ | String _ _ => _ end] =>
             destruct r
         end; cbn [snd pred no_space_prefix]; try done.
  all: repeat match goal with
              | H : _ && _ = true |- _ => apply andb_true_iff in H as [? ?]
              end.
  all: repeat match goal with
              | H : is_cont (N_of_ascii _) = true |- _ =>
                  apply is_cont_not_space in H; rewrite H
              end.
  all: done.
Qed.

(** With no byte left to pass, [keep] is not looked at. *)
Lemma FieldsFunc_from_keep (f : N → bool) (cur s : string) (k1 k2 : bool) :
  FieldsFunc_from f cur 0 k1 s = FieldsFunc_from f cur 0 k2 s.
Proof. by destruct s. Qed.

(** Every field is a word: not empty and without an ASCII blank. *)
Lemma FieldsFunc_from_words (s cur : string) (skip : nat) (keep : bool) (f : string) :
  has_space cur = false →
  (keep = true → no_space_prefix skip s = true) →
  f ∈ FieldsFunc_from IsSpace cur skip keep s →
  f ≠ "" ∧ has_space f = false.
Proof.
  revert cur skip keep. induction s as [|c s IH]; intros cur skip keep Hcur Hpre.
  - simpl. case_decide; [by intros ?%elem_of_nil|].
    by intros ->%list_elem_of_singleton.
  - destruct skip as [|k].
    + cbn [FieldsFunc_from].
      destruct (IsSpace (decoderune (String c s)).1) eqn:Hr.
      * case_decide.
        -- by apply IH.
        -- intros [->|Hin]%elem_of_cons; [done|]. revert Hin. by apply IH.
      * apply decoderune_bytes in Hr as [Hc Hp].
        apply IH; [|done]. rewrite has_space_app, Hcur. simpl. by rewrite Hc.
    + cbn [FieldsFunc_from]. destruct keep.
      * specialize (Hpre eq_refl). simpl in Hpre.
        apply andb_true_iff in Hpre as [Hc Hp]. apply negb_true_iff in Hc.
        apply IH; [|done]. rewrite has_space_app, Hcur. simpl. by rewrite Hc.
      * by apply IH.
Qed.

Lemma Fields_words (s f : string) :
  f ∈ Fields s → f ≠ "" ∧ has_space f = false.
Proof.
  unfold Fields, FieldsFunc. destruct (all_ascii s).
  - by apply Fields_from_words.
  - by apply FieldsFunc_from_words.
Qed.

(** An ASCII word at the start of the text joins the field being read. *)
Lemma FieldsFunc_from_word (p s cur : string) (keep : bool) :
  all_ascii p = true → has_space p = false →
  FieldsFunc_from IsSpace cur 0 keep (p +:+ s)
  = FieldsFunc_from IsSpace (cur +:+ p) 0 keep s.
Proof.
  revert cur keep. induction p as [|c p IH]; intros cur keep Ha Hp.
  - by rewrite append_empty_l, append_empty_r.
  - rewrite append_cons. simpl in Ha, Hp.
    apply andb_true_iff in Ha as [Hc Ha]. apply orb_false_elim in Hp as [Hsp Hp].
    cbn [FieldsFunc_from]. unfold decoderune. rewrite Hc. cbn [fst snd pred].
    rewrite (IsSpace_ascii c Hc), Hsp, IH by done.
    rewrite append_assoc. apply FieldsFunc_from_keep.
Qed.

(** The text starts with an ASCII word and a line feed: the word is the
    first field. *)
Lemma Fields_first_word (p rest : string) :
  p ≠ "" → all_ascii p = true → has_space p = false →
  ∃ tl, Fields (p +:+ LF +:+ rest) = p :: tl.
Proof.
  intros Hne Ha Hsp. unfold Fields, FieldsFunc.
  destruct (all_ascii (p +:+ LF +:+ rest)).
  - rewrite Fields_from_word, append_empty_l by done.
    unfold LF. rewrite append_cons, append_empty_l. simpl.
    rewrite decide_False by done. by eexists.
  - rewrite FieldsFunc_from_word, append_empty_l by done.
    unfold LF. rewrite append_cons, append_empty_l. cbn [FieldsFunc_from].
    change (IsSpace (decoderune (String "010" rest)).1) with true. cbn iota.
    rewrite decide_False by done. by eexists.
Qed.

(** A no-break space, two bytes of UTF-8, separates fields as well. *)
Example Fields_no_break_space :
  Fields ("12" +:+ String "194" (String "160" "34")) = ["12"; "34"].
Proof. vm_compute. reflexivity. Qed.

Section MoreProperties.
Context (fl : Flags).

Local Abbreviation ns := (configMapNamespace fl).
Local Abbreviation name := (configMapName fl).
Local Abbreviation key := (watchKey fl).
Local Abbreviation sel := (labelSelector fl).

Ltac by_pass_cases w :=
  destruct (updateConfigMap_cases fl w)
    as [ e Hns
       | its e r w' Hns Hget Hcr
       | its cm Hns Hget Hsync
       | its cm Hns Hget Hne Hd
       | its cm g e w' Hns Hget Hne Hd Hup
       | its cm g cm' w' Hns Hget Hne Hd Hup ].

Ltac count_events :=
  unfold trace_of, outcome_of, world_of, writes, creates, updates,
    signaler_calls, signals_sent in *;
  cbn [fst snd] in *;
  repeat first
    [ rewrite count_app
    | rewrite count_cons
    | rewrite count_nil
    | rewrite after_pgrep_only by done ];
  repeat match goal with
         | |- context [match ?r with Ok _ => _ | Err _ => _ end] => destruct r
         end;
  repeat first [ rewrite count_cons | rewrite count_nil ];
  cbn [is_list is_get is_create is_update is_pgrep is_kill is_write
       is_store_call is_failed_update is_lock is_unlock is_ok_write err_of orb];
  try lia.

(** X1. The lock is taken first and released last, once each, in every
    pass, also in one that panics: the trace of a pass is [EvLock], then
    events that are neither a lock nor an unlock, then [EvUnlock]. *)
Theorem lock_brackets_every_pass (w : World) :
  ∃ mid,
    trace_of (updateConfigMap fl w) = EvLock :: mid ++ [EvUnlock] ∧
    count is_lock mid = 0 ∧
    count is_unlock mid = 0.
Proof.
  by_pass_cases w; unfold trace_of; cbn [snd].
  - eexists [_; _]. repeat split.
  - eexists (_ :: _ :: _ :: match r with Ok _ => _ | Err _ => _ end).
    split; [by destruct r|]. by destruct r.
  - eexists [_; _]. repeat split.
  - eexists [_; _]. repeat split.
  - eexists [_; _; _; _]. repeat split.
  - eexists (_ :: _ :: _ :: _ :: _ :: after_pgrep w').
    split; [done|]. split; count_events.
Qed.

(** X2. A pass touches one object only: whatever the answers of the
    world, every object stored under another (namespace, name) than the
    configured one is after the pass what it was before, an object stored
    under the configured one is still there (the pass never deletes), and
    the rest of the world is as it was. *)
Theorem pass_store_frame (w : World) :
  (∀ k, k ≠ (ns, name) →
        configmaps (world_of (updateConfigMap fl w)) !! k = configmaps w !! k) ∧
  (is_Some (configmaps w !! (ns, name)) →
   is_Some (configmaps (world_of (updateConfigMap fl w)) !! (ns, name))) ∧
  set_configmaps (world_of (updateConfigMap fl w)) (configmaps w) = w.
Proof.
  assert (∀ w' m, w' = w ∨ w' = set_configmaps w (<[(ns, name) := m]> (configmaps w)) →
            (∀ k, k ≠ (ns, name) → configmaps w' !! k = configmaps w !! k) ∧
            (is_Some (configmaps w !! (ns, name)) → is_Some (configmaps w' !! (ns, name))) ∧
            set_configmaps w' (configmaps w) = w) as Hframe.
  { intros w' m [->| ->].
    - repeat split; try done. by destruct w.
    - repeat split.
      + intros k Hk. simpl. by rewrite lookup_insert_ne.
      + intros _. simpl. rewrite lookup_insert_eq. by eexists.
      + by destruct w. }
  by_pass_cases w; unfold world_of; cbn [fst snd].
  - apply (Hframe w (stored_obj None)). by left.
  - apply Create_answer_world in Hcr as [[_ ->]|(e' & _ & ->)].
    + eapply Hframe. by right.
    + apply (Hframe w (stored_obj None)). by left.
  - apply (Hframe w (stored_obj None)). by left.
  - apply (Hframe w (stored_obj None)). by left.
  - apply Update_answer_err in Hup as ->.
    apply (Hframe w (stored_obj None)). by left.
  - apply Update_answer_ok in Hup as ->.
    apply Get_answer_found in Hget as (_ & o & _ & ->).
    eapply Hframe. by right.
Qed.

(** X3. The store changes only by a write that the store accepted: a pass
    makes at most one accepted write, and a pass without one (a failed
    lister, a no-op, a refused create, a failed update, a panic) leaves
    the whole world as it was. *)
Theorem world_changes_only_by_accepted_write (w : World) :
  count is_ok_write (trace_of (updateConfigMap fl w)) ≤ 1 ∧
  (count is_ok_write (trace_of (updateConfigMap fl w)) = 0 →
   world_of (updateConfigMap fl w) = w).
Proof.
  by_pass_cases w; unfold world_of; cbn [fst snd].
  - split; [count_events|done].
  - apply Create_answer_world in Hcr as [[-> ->]|(e' & -> & ->)].
    + split; [count_events|]. intros H; revert H. count_events.
    + split; [count_events|done].
  - split; [count_events|done].
  - split; [count_events|done].
  - apply Update_answer_err in Hup as ->. split; [count_events|done].
  - split; [count_events|]. intros H; revert H. count_events.
Qed.

(** X4. The process is signalled only after an update the store accepted:
    a pass that runs [kill] has the trace lock, list, get, accepted
    update, the announcement, a [pgrep] that succeeded, the [kill], a
    print if the [kill] failed, unlock; the process id given to [kill] is
    the first field that [strings.Fields] finds in the output of [pgrep],
    ASCII or not, and it is not empty and has none of the six ASCII
    blanks among its bytes. *)
Theorem kill_only_after_update (w : World) (pid : string) (err : option error) :
  EvKill pid err ∈ trace_of (updateConfigMap fl w) →
  (∃ cm out rest,
     pgrep_result w = Ok out ∧
     Fields out = pid :: rest ∧
     err = kill_result w ∧
     trace_of (updateConfigMap fl w)
     = [EvLock; EvList sel None; EvGet ns name None; EvUpdate ns cm None;
        EvPrint ("Restarting main container..." +:+ LF);
        EvPgrep (mainContainerName fl) None;
        EvKill pid err]
       ++ match err with
          | Some e => [EvPrint ("Error sending SIGTERM to main container: "
                                +:+ Error e +:+ LF)]
          | None => []
          end
       ++ [EvUnlock]) ∧
  pid ≠ "" ∧ has_space pid = false.
Proof.
  intros Hin.
  by_pass_cases w; unfold trace_of in *; cbn [fst snd app] in *.
  - repeat (apply elem_of_cons in Hin as [Hin|Hin]; [discriminate Hin|]).
    by apply elem_of_nil in Hin.
  - repeat (apply elem_of_cons in Hin as [Hin|Hin]; [discriminate Hin|]).
    destruct r; repeat (apply elem_of_cons in Hin as [Hin|Hin]; [discriminate Hin|]);
      by apply elem_of_nil in Hin.
  - repeat (apply elem_of_cons in Hin as [Hin|Hin]; [discriminate Hin|]).
    by apply elem_of_nil in Hin.
  - repeat (apply elem_of_cons in Hin as [Hin|Hin]; [discriminate Hin|]).
    by apply elem_of_nil in Hin.
  - repeat (apply elem_of_cons in Hin as [Hin|Hin]; [discriminate Hin|]).
    by apply elem_of_nil in Hin.
  - apply Update_answer_ok in Hup as ->.
    rewrite after_pgrep_set_configmaps in *. cbn [pgrep_result set_configmaps] in *.
    repeat (apply elem_of_cons in Hin as [Hin|Hin]; [discriminate Hin|]).
    apply elem_of_app in Hin as [Hin|Hin].
    2: { apply list_elem_of_singleton in Hin. discriminate Hin. }
    unfold after_pgrep in *.
    destruct (pgrep_result w) as [out|e0] eqn:Hpg.
    2: { apply list_elem_of_singleton in Hin. discriminate Hin. }
    destruct (Fields out) as [|pid0 rest] eqn:Hf.
    { apply list_elem_of_singleton in Hin. discriminate Hin. }
    assert (pid0 = pid ∧ kill_result w = err) as [-> <-].
    { apply elem_of_cons in Hin as [Hin|Hin]; [by injection Hin as -> ->|].
      destruct (kill_result w).
      - apply list_elem_of_singleton in Hin. discriminate Hin.
      - by apply elem_of_nil in Hin. }
    split.
    + eexists _, out, rest. repeat split; try done;
        simpl; by destruct (kill_result w).
    + apply (Fields_words out pid). rewrite Hf. apply list_elem_of_here.
Qed.

(** X5. When [pgrep] prints several process ids, the first one is taken:
    if the output starts with a word of ASCII bytes, none of them a
    blank, followed by a line feed, [getMainContainerPID] returns that
    word whatever follows, ASCII or not, without an error, having run
    [pgrep] once with the configured pattern. *)
Theorem first_pid_is_taken (w : World) (pid rest : string) :
  pgrep_result w = Ok (pid +:+ LF +:+ rest) →
  pid ≠ "" → all_ascii pid = true → has_space pid = false →
  getMainContainerPID fl w
  = (Returned (Ok pid), w, [EvPgrep (mainContainerName fl) None]).
Proof.
  intros Hpg Hne Ha Hsp.
  destruct (Fields_first_word pid rest Hne Ha Hsp) as [tl Hf].
  unfold getMainContainerPID, bind, exec_pgrep, ret. rewrite Hpg.
  cbn [err_of]. rewrite Hf. reflexivity.
Qed.

(** From any store that a pass can write to, the pass ends in step. *)
Lemma pass_reaches_step (w : World) (items : list NamespaceObj) :
  namespaces w = Ok items →
  get_fault w = None → create_fault w = None → update_fault w = None →
  (∀ o, configmaps w !! (ns, name) = Some o → is_Some (objData o)) →
  ∃ w' tr,
    updateConfigMap fl w = (Returned tt, w', tr) ∧
    in_step fl items w' ∧
    create_fault w' = None ∧ update_fault w' = None ∧
    count is_list tr = 1 ∧ writes tr ≤ 1 ∧ signaler_calls tr ≤ 1.
Proof.
  intros Hitems Hgf Hcf Huf Hdata. unfold in_step.
  destruct (configmaps w !! (ns, name)) as [o|] eqn:Ho.
  - destruct (Hdata o eq_refl) as [d Hd].
    destruct (decide (default "" (d !! key) = Join (listed_names items) ",")) as [Heq|Hneq].
    + assert (stored_value fl w = Some (Join (listed_names items) ",")) as Hsv.
      { unfold stored_value. rewrite Ho. simpl. rewrite Hd. simpl. by rewrite Heq. }
      eexists _, _. split; [apply (pass_noop fl w items Hitems Hgf Hsv)|].
      repeat split; try done; count_events.
    + eexists _, _. split; [apply (pass_updates fl w items o d Hitems Hgf Huf Ho Hd Hneq)|].
      unfold stored_value. simpl. rewrite lookup_insert_eq. simpl. rewrite lookup_insert_eq.
      repeat split; try done; count_events.
  - eexists _, _. split; [apply (pass_creates fl w items Hitems Hgf Hcf Ho)|].
    unfold stored_value. simpl. rewrite lookup_insert_eq. simpl. rewrite lookup_singleton_eq.
    repeat split; try done; count_events.
Qed.

(** In step, a pass is a no-op, and so is any number of them. *)
Lemma deliver_in_step (w : World) (items : list NamespaceObj) (notes : list Notification) :
  in_step fl items w →
  ∃ tr,
    deliver (watchNamespaces fl) notes w = (Returned tt, w, tr) ∧
    count is_list tr = length notes ∧ writes tr = 0 ∧ signaler_calls tr = 0.
Proof.
  intros (Hitems & Hgf & Hsv).
  induction notes as [|n notes (tr & IH & Hl & Hw & Hs)].
  - by exists [].
  - eexists. split.
    + cbn [deliver]. unfold bind.
      assert (notify (watchNamespaces fl) n w = updateConfigMap fl w) as ->
        by (by destruct n).
      rewrite (pass_noop fl w items Hitems Hgf Hsv), IH. reflexivity.
    + unfold writes, signaler_calls in *. rewrite !count_app, Hl, Hw, Hs.
      repeat split.
Qed.

(** X6. What a pass establishes: with a lister that answers and a store
    that reports no failure, from any store in which the configured
    object is absent or has a data map that is not nil, the pass returns
    and the store then holds, under the watched key of the configured
    object, the listed names joined by commas; the pass makes at most one
    write and runs the signaler at most once. *)
Theorem pass_establishes_value (w : World) (items : list NamespaceObj) :
  namespaces w = Ok items →
  get_fault w = None → create_fault w = None → update_fault w = None →
  (∀ o, configmaps w !! (ns, name) = Some o → is_Some (objData o)) →
  outcome_of (updateConfigMap fl w) = Returned tt ∧
  stored_value fl (world_of (updateConfigMap fl w)) = Some (Join (listed_names items) ",") ∧
  writes (trace_of (updateConfigMap fl w)) ≤ 1 ∧
  signaler_calls (trace_of (updateConfigMap fl w)) ≤ 1.
Proof.
  intros Hitems Hgf Hcf Huf Hdata.
  destruct (pass_reaches_step w items Hitems Hgf Hcf Huf Hdata)
    as (w' & tr & -> & (_ & _ & Hsv) & _ & _ & _ & Hw & Hs).
  unfold outcome_of, world_of, trace_of. cbn [fst snd].
  by repeat split.
Qed.

(** X7. Notifications in a world that stays as it is: with a lister that
    keeps answering the same listing and a store that reports no failure,
    whatever the notifications and however many, each of them runs one
    full pass (one list call each), all of them together make at most one
    store write and run the signaler at most once, the handler never
    panics, and after the first of them the store holds the joined
    names. *)
Theorem notifications_in_a_stable_world
    (w : World) (items : list NamespaceObj) (notes : list Notification) :
  namespaces w = Ok items →
  get_fault w = None → create_fault w = None → update_fault w = None →
  (∀ o, configmaps w !! (ns, name) = Some o → is_Some (objData o)) →
  outcome_of (deliver (watchNamespaces fl) notes w) = Returned tt ∧
  count is_list (trace_of (deliver (watchNamespaces fl) notes w)) = length notes ∧
  writes (trace_of (deliver (watchNamespaces fl) notes w)) ≤ 1 ∧
  signaler_calls (trace_of (deliver (watchNamespaces fl) notes w)) ≤ 1 ∧
  (notes ≠ [] →
   stored_value fl (world_of (deliver (watchNamespaces fl) notes w))
   = Some (Join (listed_names items) ",")).
Proof.
  intros Hitems Hgf Hcf Huf Hdata.
  destruct notes as [|n notes].
  { repeat split; try done; unfold writes, signaler_calls, count; simpl; lia. }
  destruct (pass_reaches_step w items Hitems Hgf Hcf Huf Hdata)
    as (w' & tr & Hrun & Hstep & _ & _ & Hl & Hw & Hs).
  destruct (deliver_in_step w' items notes Hstep) as (tr' & Hrun' & Hl' & Hw' & Hs').
  cbn [deliver]. unfold bind.
  assert (notify (watchNamespaces fl) n w = updateConfigMap fl w) as ->
    by (by destruct n).
  rewrite Hrun, Hrun'.
  unfold outcome_of, world_of, trace_of, writes, signaler_calls in *. cbn [fst snd].
  rewrite !count_app, Hl, Hl'. destruct Hstep as (_ & _ & Hsv).
  repeat split; try done; simpl; lia.
Qed.
End MoreProperties.

(** ** The joined value *)

Lemma has_comma_app (a b : string) :
  has_comma (a +:+ b) = has_comma a || has_comma b.
Proof.
  induction a as [|c a IH]; [done|].
  rewrite append_cons. simpl. rewrite IH. by rewrite orb_assoc.
Qed.

(** Two texts without a comma, each followed by a comma and more, are
    equal only part by part. *)
Lemma comma_split (s s' x y : string) :
  has_comma s = false → has_comma s' = false →
  s +:+ "," +:+ x = s' +:+ "," +:+ y →
  s = s' ∧ x = y.
Proof.
  revert s'. induction s as [|c s IH]; intros [|c' s'] Hs Hs' Heq;
    rewrite ?append_cons, ?append_empty_l in Heq;
    rewrite ?append_cons, ?append_empty_l in Heq.
  - by injection Heq as ->.
  - injection Heq as <- _. simpl in Hs'. discriminate Hs'.
  - injection Heq as -> _. simpl in Hs. discriminate Hs.
  - injection Heq as -> Heq.
    simpl in Hs, Hs'. apply orb_false_elim in Hs as [_ Hs].
    apply orb_false_elim in Hs' as [_ Hs'].
    destruct (IH s' Hs Hs' Heq) as [-> ->]. done.
Qed.

(** X8. The stored value tells the listing: two lists of names that are
    not empty and have no comma, as namespace names are, give the same
    comma-joined value only if they are the same list, in the same
    order. *)
Theorem Join_names_injective (l1 l2 : list string) :
  Forall plain_name l1 → Forall plain_name l2 →
  Join l1 "," = Join l2 "," →
  l1 = l2.
Proof.
  intros H1. revert l2.
  induction H1 as [|s l1 [Hs Hc] H1 IH]; intros l2 H2 Heq.
  - destruct H2 as [|s' l2 [Hs' Hc'] H2]; [done|].
    destruct l2 as [|t' l2].
    + simpl in Heq. congruence.
    + rewrite Join_cons in Heq. destruct s'; [done|].
      rewrite append_cons in Heq. discriminate Heq.
  - destruct H2 as [|s' l2 [Hs' Hc'] H2].
    + destruct l1 as [|t l1].
      * simpl in Heq. congruence.
      * rewrite Join_cons in Heq. destruct s; [done|].
        rewrite append_cons in Heq. discriminate Heq.
    + destruct l1 as [|t l1], l2 as [|t' l2].
      * simpl in Heq. by subst.
      * rewrite Join_singleton, Join_cons in Heq. subst s.
        rewrite has_comma_app in Hc. rewrite has_comma_app in Hc.
        simpl in Hc. by rewrite orb_true_r in Hc.
      * rewrite Join_singleton, Join_cons in Heq. subst s'.
        rewrite has_comma_app in Hc'. rewrite has_comma_app in Hc'.
        simpl in Hc'. by rewrite orb_true_r in Hc'.
      * rewrite !Join_cons in Heq.
        destruct (comma_split _ _ _ _ Hc Hc' Heq) as [-> Hrest].
        f_equal. by apply IH.
Qed.

(** Without those conditions the value does not tell the listing. *)
Example Join_needs_plain_names :
  Join [] "," = Join [""] "," ∧ Join ["a,b"] "," = Join ["a"; "b"] ",".
Proof. split; reflexivity. Qed.

(** ** Start-up *)

Lemma pass_events_app (t1 t2 : list (BootEvent + Event)) :
  pass_events (t1 ++ t2) = pass_events t1 ++ pass_events t2.
Proof. unfold pass_events. apply omap_app. Qed.

Lemma pass_events_inl (t : list BootEvent) : pass_events (inl <$> t) = [].
Proof. induction t as [|e t IH]; [done|]. exact IH. Qed.

Lemma pass_events_inr (t : list Event) : pass_events (inr <$> t) = t.
Proof.
  induction t as [|e t IH]; [done|].
  unfold pass_events in *. simpl. by f_equal.
Qed.

Lemma boot_events_app (t1 t2 : list (BootEvent + Event)) :
  boot_events (t1 ++ t2) = boot_events t1 ++ boot_events t2.
Proof. unfold boot_events. apply omap_app. Qed.

Lemma boot_events_inl (t : list BootEvent) : boot_events (inl <$> t) = t.
Proof.
  induction t as [|e t IH]; [done|].
  unfold boot_events in *. simpl. by f_equal.
Qed.

Lemma boot_events_inr (t : list Event) : boot_events (inr <$> t) = [].
Proof. induction t as [|e t IH]; [done|]. exact IH. Qed.

Section StartupProperties.
Context (filepath_Join : list string → string).
Context (fl : Flags).

(** X9. The credentials [getKubeConfig] uses: the in-cluster
    configuration when there is one, and then neither the environment is
    read nor a file loaded; otherwise the one file it loads is the path in
    KUBECONFIG when that variable is set to a text that is not empty, and
    the path joined from HOME, .kube and config when KUBECONFIG is not set
    or is set to the empty text; the function fails only when both the
    in-cluster configuration and that file fail, with the error of the
    file after a fixed prefix. *)
Theorem getKubeConfig_sources (b : Boot) :
  (∀ c, in_cluster b = Ok c →
     getKubeConfig filepath_Join b
     = (Ok c, [BInClusterConfig None; BPrint ("Using in-cluster configuration" +:+ LF)])) ∧
  (∀ e0 p, in_cluster b = Err e0 →
     environ b !! "KUBECONFIG" = Some p → p ≠ "" →
     (getKubeConfig filepath_Join b).1
     = match build_config b p with
       | Ok c => Ok c
       | Err e => Err (errorString ("failed to load kubeconfig: " +:+ Error e))
       end ∧
     ∀ path err, BBuildConfig path err ∈ (getKubeConfig filepath_Join b).2 → path = p) ∧
  (∀ e0, in_cluster b = Err e0 →
     environ b !! "KUBECONFIG" = None ∨ environ b !! "KUBECONFIG" = Some "" →
     (getKubeConfig filepath_Join b).1
     = match build_config b (filepath_Join [Getenv b "HOME"; ".kube"; "config"]) with
       | Ok c => Ok c
       | Err e => Err (errorString ("failed to load kubeconfig: " +:+ Error e))
       end ∧
     ∀ path err, BBuildConfig path err ∈ (getKubeConfig filepath_Join b).2 →
                 path = filepath_Join [Getenv b "HOME"; ".kube"; "config"]).
Proof.
  split; [|split].
  - intros c Hc. unfold getKubeConfig. by rewrite Hc.
  - intros e0 p Hin Hp Hne. unfold getKubeConfig. rewrite Hin.
    assert (Getenv b "KUBECONFIG" = p) as -> by (unfold Getenv; by rewrite Hp).
    rewrite decide_False by done.
    destruct (build_config b p); simpl; (split; [done|]).
    all: intros path err Hel.
    all: repeat (apply elem_of_cons in Hel as [Hel|Hel];
                 [first [discriminate Hel | by injection Hel as -> _]|]).
    all: by apply elem_of_nil in Hel.
  - intros e0 Hin Hp. unfold getKubeConfig. rewrite Hin.
    assert (Getenv b "KUBECONFIG" = "") as -> by (unfold Getenv; by destruct Hp as [-> | ->]).
    rewrite decide_True by done.
    destruct (build_config b _); simpl; (split; [done|]).
    all: intros path err Hel.
    all: repeat (apply elem_of_cons in Hel as [Hel|Hel];
                 [first [discriminate Hel | by injection Hel as -> _]|]).
    all: by apply elem_of_nil in Hel.
Qed.

(** X10. How [main] starts: it leaves with status 1, and with no other
    status, exactly when [getKubeConfig] fails or the client cannot be
    built, and then it has made no call to the cluster and left the world
    as it was; otherwise it runs exactly one pass, the events of which are
    those of [updateConfigMap] on the world it found, before it starts
    the watcher, or it ends on the panic of that pass. *)
Theorem main_start (b : Boot) (w : World) :
  (∀ code, (main filepath_Join fl b w).1.1 = Exited code → code = 1%Z) ∧
  ((main filepath_Join fl b w).1.1 = Exited 1 ↔
   (∃ e, (getKubeConfig filepath_Join b).1 = Err e) ∨
   (∃ c e, (getKubeConfig filepath_Join b).1 = Ok c ∧ new_client b c = Some e)) ∧
  ((main filepath_Join fl b w).1.1 = Exited 1 →
   pass_events (main filepath_Join fl b w).2 = [] ∧ (main filepath_Join fl b w).1.2 = w) ∧
  ((main filepath_Join fl b w).1.1 ≠ Exited 1 →
   pass_events (main filepath_Join fl b w).2 = trace_of (updateConfigMap fl w) ∧
   (main filepath_Join fl b w).1.2 = world_of (updateConfigMap fl w) ∧
   boot_events (main filepath_Join fl b w).2
   = (getKubeConfig filepath_Join b).2 ++ [BNewForConfig None] ∧
   ((main filepath_Join fl b w).1.1 = Serving ↔
    outcome_of (updateConfigMap fl w) = Returned tt)).
Proof.
  unfold main.
  destruct (getKubeConfig filepath_Join b) as [[c|e] t] eqn:Hk; cbn [fst snd].
  2: { repeat split; try done.
       - by intros code [= <-].
       - intros _. left. by exists e.
       - by rewrite pass_events_app, pass_events_inl. }
  destruct (new_client b c) as [e|] eqn:Hn; cbn [fst snd].
  { repeat split; try done.
    - by intros code [= <-].
    - intros _. right. by exists c, e.
    - by rewrite pass_events_app, pass_events_inl. }
  destruct (updateConfigMap fl w) as [[[[]|msg] w'] tr] eqn:Hrun;
    unfold trace_of, world_of, outcome_of; cbn [fst snd].
  all: repeat split; try done.
  all: try (intros [(e & He)|(c' & e & Hc & He)]; [done|];
            injection Hc as <-; congruence).
  all: try (by rewrite !pass_events_app, pass_events_inl, pass_events_inr).
  all: try (by rewrite !boot_events_app, boot_events_inl, boot_events_inr, app_nil_r).
Qed.
End StartupProperties.

(** ** The command line *)

(** One flag written in any of the four ways sets its variable, and the
    parse goes on with what follows. *)
Lemma Parse_render (f : Flags) (a : FlagVar * string * FlagForm) (rest : list string) :
  Parse f (render a ++ rest) = Parse (assign f a) rest.
Proof.
  destruct a as [[v value] form]. unfold assign. cbn [fst snd].
  destruct v, form; reflexivity.
Qed.

Lemma Parse_renders (l : list (FlagVar * string * FlagForm)) (f : Flags) (rest : list string) :
  Parse f (concat (render <$> l) ++ rest) = Parse (foldl assign f l) rest.
Proof.
  revert f. induction l as [|a l IH]; intros f; [done|].
  rewrite fmap_cons. cbn [concat foldl]. rewrite <- app_assoc.
  by rewrite Parse_render, IH.
Qed.

Lemma cut_equals_none (s : string) :
  has_equals s = false → cut_equals s = None.
Proof. unfold has_equals. by destruct (cut_equals s). Qed.

Lemma split_value_plain (name : string) :
  has_equals name = false → split_value name = (name, None).
Proof.
  intros H. apply cut_equals_none in H. destruct name as [|c name]; [done|].
  simpl in *. destruct (is_equals c); [done|].
  by destruct (cut_equals name) as [[]|].
Qed.

Lemma string_cons_ne (c : ascii) (s : string) : s ≠ String c s.
Proof.
  revert c. induction s as [|d s IH]; intros c; [done|].
  intros [= -> H]. by apply (IH c).
Qed.

Lemma flag_syntax_one_minus (c : ascii) (tl : string) :
  is_minus c = false →
  flag_syntax (String "-" (String c tl)) = check_name (String c tl).
Proof. intros H. unfold flag_syntax. by rewrite H. Qed.

Lemma flag_syntax_two_minus (tl : string) :
  flag_syntax (String "-" (String "-" tl))
  = match tl with
    | EmptyString => Terminator
    | _ => check_name tl
    end.
Proof. reflexivity. Qed.

(** X11. The flags given are the flags set: for any list of flags with
    values, each written as [-name=value], [--name=value], [-name value]
    or [--name value] with any text as value, [init] exits nowhere, leaves
    no argument over, and gives every variable the value of the last flag
    of its name in the list, or its default from [main.go] when the list
    has none. *)
Theorem init_reads_flags (l : list (FlagVar * string * FlagForm)) :
  init (concat (render <$> l)) = Parsed (foldl assign default_flags l) [].
Proof.
  unfold init.
  rewrite <- (app_nil_r (concat (render <$> l))).
  by rewrite Parse_renders.
Qed.

(** X12. Every configuration can be given on the command line: for any
    five values, the five flags written as [-name=value] are read back by
    [init] as exactly those values. *)
Theorem init_command_line (f : Flags) :
  init (command_line f) = Parsed f [].
Proof.
  unfold init.
  change (command_line f)
    with (concat (render <$> [(ConfigMapNameVar, configMapName f, MinusEquals);
                              (ConfigMapNamespaceVar, configMapNamespace f, MinusEquals);
                              (LabelSelectorVar, labelSelector f, MinusEquals);
                              (WatchKeyVar, watchKey f, MinusEquals);
                              (MainContainerVar, mainContainerName f, MinusEquals)])
          ++ []).
  rewrite Parse_renders. by destruct f.
Qed.

(** X13. A flag that is not defined stops the program: after any flags
    that are defined, an argument made of a minus and a name that is none
    of the five, nor help nor h, makes [init] exit with status 2 and the
    message that names the flag, whatever its value and whatever
    follows. *)
Theorem init_undefined_flag
    (l : list (FlagVar * string * FlagForm)) (name : string) (rest : list string) :
  flag_syntax ("-" +:+ name) = FlagArg name →
  has_equals name = false →
  formal name = None →
  name ≠ "help" → name ≠ "h" →
  init (concat (render <$> l) ++ ("-" +:+ name) :: rest)
  = ExitWith 2 ("flag provided but not defined: -" +:+ name) ∧
  ∀ value,
    init (concat (render <$> l) ++ ("-" +:+ name +:+ "=" +:+ value) :: rest)
    = ExitWith 2 ("flag provided but not defined: -" +:+ name).
Proof.
  intros Hsyn Heq Hformal Hhelp Hh. unfold init. rewrite !Parse_renders.
  split.
  - cbn [Parse]. rewrite Hsyn, (split_value_plain name Heq). cbn [fst snd].
    rewrite Hformal. rewrite decide_False; [done|]. by intros [|].
  - intros value. rewrite Parse_renders. cbn [Parse].
    assert (flag_syntax ("-" +:+ name +:+ "=" +:+ value)
            = FlagArg (name +:+ "=" +:+ value)) as ->.
    { revert Hsyn. rewrite !append_cons, !append_empty_l.
      destruct name as [|c tl]; [done|]. rewrite !append_cons.
      destruct (is_minus c) eqn:Hc.
      - apply bool_decide_eq_true in Hc as ->.
        rewrite flag_syntax_two_minus. destruct tl as [|d tl]; [done|].
        unfold check_name. destruct (_ || _); [done|].
        intros [= _ H]. exfalso. by apply (string_cons_ne d tl).
      - rewrite !flag_syntax_one_minus by done.
        unfold check_name. rewrite Hc. simpl. by destruct (is_equals c). }
    assert (split_value (name +:+ "=" +:+ value) = (name, Some value)) as ->.
    { apply cut_equals_none in Heq. destruct name as [|c name]; [done|].
      rewrite append_cons. unfold split_value.
      simpl in Heq. destruct (is_equals c); [done|].
      assert (∀ s, cut_equals s = None →
                   cut_equals (s +:+ "=" +:+ value) = Some (s, value)) as Hcut.
      { clear. induction s as [|c s IH]; [done|]. intros H.
        rewrite append_cons. simpl in *.
        destruct (is_equals c); [done|].
        destruct (cut_equals s) as [[]|] eqn:E; [done|]. by rewrite IH. }
      rewrite Hcut; [done|]. by destruct (cut_equals name) as [[]|]. }
    cbn [fst snd]. rewrite Hformal. rewrite decide_False; [done|]. by intros [|].
Qed.

(** ** The further properties at concrete worlds *)

Lemma kill_only_after_update_witness :
  EvKill "4242" None ∈ trace_of (updateConfigMap default_flags stale_world) ∧
  (∃ cm out rest,
     pgrep_result stale_world = Ok out ∧
     Fields out = "4242" :: rest ∧
     None = kill_result stale_world ∧
     trace_of (updateConfigMap default_flags stale_world)
     = [EvLock; EvList "foo=bar" None; EvGet "vault" "watch-namespace-config" None;
        EvUpdate "vault" cm None;
        EvPrint ("Restarting main container..." +:+ LF);
        EvPgrep "main-container" None;
        EvKill "4242" None]
       ++ [] ++ [EvUnlock]) ∧
  "4242" ≠ "" ∧ has_space "4242" = false.
Proof.
  assert (EvKill "4242" None ∈ trace_of (updateConfigMap default_flags stale_world))
    as Hin.
  { vm_compute. do 6 apply list_elem_of_further. apply list_elem_of_here. }
  split; [exact Hin|].
  exact (kill_only_after_update default_flags stale_world "4242" None Hin).
Defined.

Lemma first_pid_is_taken_witness :
  pgrep_result two_pids_world = Ok ("12" +:+ LF +:+ ("345" +:+ LF)) ∧
  getMainContainerPID default_flags two_pids_world
  = (Returned (Ok "12"), two_pids_world, [EvPgrep "main-container" None]).
Proof.
  split; [reflexivity|].
  apply (first_pid_is_taken default_flags two_pids_world "12" ("345" +:+ LF));
    [reflexivity | discriminate | reflexivity | reflexivity].
Defined.

Lemma pass_establishes_value_witness :
  namespaces absent_world = Ok (mkNamespace <$> ["a"; "b"]) ∧
  configmaps absent_world !! ("vault", "watch-namespace-config") = None ∧
  outcome_of (updateConfigMap default_flags absent_world) = Returned tt ∧
  stored_value default_flags (world_of (updateConfigMap default_flags absent_world))
  = Some (Join (listed_names (mkNamespace <$> ["a"; "b"])) ",") ∧
  writes (trace_of (updateConfigMap default_flags absent_world)) ≤ 1 ∧
  signaler_calls (trace_of (updateConfigMap default_flags absent_world)) ≤ 1.
Proof.
  assert (∀ o, configmaps absent_world !! ("vault", "watch-namespace-config") = Some o →
               is_Some (objData o)) as Hdata.
  { intros o H. vm_compute in H. discriminate H. }
  split; [reflexivity|]. split; [reflexivity|].
  exact (pass_establishes_value default_flags absent_world (mkNamespace <$> ["a"; "b"])
           eq_refl eq_refl eq_refl eq_refl Hdata).
Defined.

Lemma notifications_in_a_stable_world_witness :
  namespaces stale_world = Ok (mkNamespace <$> ["a"; "b"]) ∧
  outcome_of (deliver (watchNamespaces default_flags)
                [OnAdd (mkNamespace "a"); OnAdd (mkNamespace "b");
                 OnUpdate (mkNamespace "a") (mkNamespace "a")] stale_world)
  = Returned tt ∧
  count is_list (trace_of (deliver (watchNamespaces default_flags)
                             [OnAdd (mkNamespace "a"); OnAdd (mkNamespace "b");
                              OnUpdate (mkNamespace "a") (mkNamespace "a")] stale_world))
  = 3 ∧
  writes (trace_of (deliver (watchNamespaces default_flags)
                      [OnAdd (mkNamespace "a"); OnAdd (mkNamespace "b");
                       OnUpdate (mkNamespace "a") (mkNamespace "a")] stale_world)) ≤ 1 ∧
  signaler_calls (trace_of (deliver (watchNamespaces default_flags)
                              [OnAdd (mkNamespace "a"); OnAdd (mkNamespace "b");
                               OnUpdate (mkNamespace "a") (mkNamespace "a")] stale_world))
  ≤ 1.
Proof.
  assert (∀ o, configmaps stale_world !! ("vault", "watch-namespace-config") = Some o →
               is_Some (objData o)) as Hdata.
  { intros o [= <-]. by eexists. }
  pose proof (notifications_in_a_stable_world default_flags stale_world
                (mkNamespace <$> ["a"; "b"])
                [OnAdd (mkNamespace "a"); OnAdd (mkNamespace "b");
                 OnUpdate (mkNamespace "a") (mkNamespace "a")]
                eq_refl eq_refl eq_refl eq_refl Hdata)
    as (Ho & Hl & Hw & Hs & _).
  split; [reflexivity|]. split; [exact Ho|]. split; [exact Hl|].
  split; [exact Hw|exact Hs].
Defined.

Lemma Join_names_injective_witness :
  Forall plain_name ["kube-system"; "vault"] ∧
  Join ["kube-system"; "vault"] "," = "kube-system,vault" ∧
  ["kube-system"; "vault"] = ["kube-system"; "vault"].
Proof.
  assert (Forall plain_name ["kube-system"; "vault"]) as Hp.
  { repeat constructor; discriminate. }
  split; [exact Hp|]. split; [reflexivity|].
  exact (Join_names_injective ["kube-system"; "vault"] ["kube-system"; "vault"]
           Hp Hp eq_refl).
Defined.

Lemma getKubeConfig_sources_witness :
  environ laptop_boot !! "KUBECONFIG" = None ∧
  (getKubeConfig join_slash laptop_boot).1 = Ok local_config ∧
  (∀ path err,
     BBuildConfig path err ∈ (getKubeConfig join_slash laptop_boot).2 →
     path = "/root/.kube/config").
Proof.
  split; [reflexivity|].
  exact (proj2 (proj2 (getKubeConfig_sources join_slash laptop_boot))
           _ eq_refl (or_introl eq_refl)).
Defined.

Lemma main_start_witness :
  (main join_slash default_flags bare_boot stale_world).1.1 = Exited 1 ∧
  pass_events (main join_slash default_flags bare_boot stale_world).2 = [] ∧
  (main join_slash default_flags bare_boot stale_world).1.2 = stale_world.
Proof.
  assert ((main join_slash default_flags bare_boot stale_world).1.1 = Exited 1) as Hex
    by reflexivity.
  split; [exact Hex|].
  exact (proj1 (proj2 (proj2 (main_start join_slash default_flags bare_boot stale_world)))
           Hex).
Defined.

Lemma init_undefined_flag_witness :
  flag_syntax ("-" +:+ "bogus") = FlagArg "bogus" ∧
  init (concat (render <$> [(WatchKeyVar, "NAMESPACES", MinusThenValue)])
        ++ ("-" +:+ "bogus") :: ["-watch-key=x"])
  = ExitWith 2 ("flag provided but not defined: -" +:+ "bogus").
Proof.
  split; [reflexivity|].
  apply (init_undefined_flag [(WatchKeyVar, "NAMESPACES", MinusThenValue)] "bogus"
           ["-watch-key=x"]); try reflexivity; discriminate.
Defined.
